(** * Gray World colour-cast correction: correct.py

    The development embeds correct.py: its numeric core, the function
    [correct_color_cast(image, strength)], together with the NumPy and
    OpenCV primitives it calls, and the methods of the application class
    [ColorCorrectorApp] that call it, and proves the properties stated
    about them.

    Layout:
    - [Float]: binary floating-point arithmetic (round to nearest, ties to
      even) over the rationals, instantiated at binary32 (NumPy float32)
      and binary64 (Python float);
    - [Py]: Python results (a value or a raised exception);
    - [Np], [Cv2]: the array primitives used by the function;
    - [correct_color_cast], and [Heap] for calls on array objects;
    - [Spec]: the transform as the specification words it;
    - [App]: the methods of the application, on a record of its attributes
      and widget states;
    - lemmas on the rounding, the refinement of [Spec] by the function,
      the main theorems, and further properties of the function and of
      the application. *)

From Stdlib Require Import ZArith QArith Qround Qabs Qminmax Qpower Qreduction.
From Stdlib Require Import Qcanon List Bool Lia Lqa Floats.SpecFloat.
From stdpp Require Import gmap strings.
Import ListNotations.

Local Open Scope Z_scope.
Local Open Scope Q_scope.

(** ** Floating-point arithmetic *)

Module Float.

(** A finite floating-point number is the rational it denotes, kept in
    lowest terms so that two floats are equal exactly when they are the
    same term.  An operation computes the exact rational result and
    rounds it to the format: this is IEEE 754 arithmetic with rounding to
    nearest, ties to even, and gradual underflow.  The exponent range is
    not bounded above: a float32 sum of [n] samples is at most [255 * n],
    far below the binary32 overflow threshold for any image that fits in
    memory.  Non-finite values only arise from a division by zero, which
    is a fault in this model (see [Np.fdiv32]); a strength that is not a
    number is not considered. *)

Definition pow2 (e : Z) : Q := 2 ^ e.

(** [ilog2 x] is the binary exponent of [x]: the integer [k] such that
    [2^k <= |x| < 2^(k+1)], for [x] different from zero. *)
Definition ilog2 (x : Q) : Z :=
  let k := (Z.log2 (Z.abs (Qnum x)) - Z.log2 (Zpos (Qden x)))%Z in
  if Qle_bool (pow2 k) (Qabs x) then k else (k - 1)%Z.

(** Rounding of a rational to the nearest integer, ties to even
    (C's [lrint] in the default rounding mode). *)
Definition rne (x : Q) : Z :=
  let f := Qfloor x in
  match Qcompare (x - inject_Z f) (1 # 2) with
  | Lt => f
  | Gt => (f + 1)%Z
  | Eq => if Z.even f then f else (f + 1)%Z
  end.

(** Truncation toward zero (a C cast from floating point to integer). *)
Definition trunc (x : Q) : Z :=
  if Qle_bool 0 x then Qfloor x else Qceiling x.

(** Exponent of the unit in the last place of [x] in a format with
    [prec] significand bits and least exponent [emin]. *)
Definition ulp_exp (prec emin : Z) (x : Q) : Z :=
  Z.max (ilog2 x - (prec - 1)) emin.

Definition round (prec emin : Z) (x : Q) : Q :=
  if Qeq_bool x 0 then 0
  else let e := ulp_exp prec emin x in
       Qred (inject_Z (rne (x * pow2 (- e))) * pow2 e).

(** binary32 (NumPy [float32], OpenCV [float]) *)
Definition rnd32 : Q -> Q := round 24 (-149).
(** binary64 (Python [float]) *)
Definition rnd64 : Q -> Q := round 53 (-1074).

Definition fadd32 (x y : Q) : Q := rnd32 (x + y).
Definition fmul32 (x y : Q) : Q := rnd32 (x * y).
Definition fsub64 (x y : Q) : Q := rnd64 (x - y).

(** [x == 0] on floats *)
Definition is_zero (x : Q) : bool := Qeq_bool x 0.

End Float.

Import Float.

(** ** The IEEE 754 operations of the Standard Library

    [SpecFloat] specifies the IEEE 754 operations on mantissa-exponent
    pairs.  The definitions below serve to compare [Float] with it on the
    computations of the examples. *)

Module Ieee.

(** The rational a finite IEEE 754 number denotes *)
Definition to_Q (f : spec_float) : option Q :=
  match f with
  | S754_zero _ => Some 0
  | S754_finite s m e => Some (Qred (inject_Z (cond_Zopp s (Zpos m)) * pow2 e))
  | _ => None
  end.

(** [m * 2^e] as a binary32 and as a binary64 number *)
Definition b32 (m e : Z) : spec_float := binary_normalize 24 128 m e false.
Definition b64 (m e : Z) : spec_float := binary_normalize 53 1024 m e false.

(** Conversion of a binary64 number to binary32 *)
Definition to_b32 (f : spec_float) : spec_float :=
  match f with
  | S754_finite s m e => b32 (cond_Zopp s (Zpos m)) e
  | _ => f
  end.

(** [x * (1.0 - strength) + y * strength + 0] in single precision, for the
    bytes [x] and [y] and a binary64 [strength] *)
Definition weighted_sum (x y : Z) (strength : spec_float) : spec_float :=
  let alpha := SFsub 53 1024 (b64 1 0) strength in
  SFadd 24 128
    (SFadd 24 128 (SFmul 24 128 (b32 x 0) (to_b32 alpha))
                  (SFmul 24 128 (b32 y 0) (to_b32 strength)))
    (b32 0 0).

(** The scale factor [((a + a) + a) / 3 / a] of a balanced image with
    channel mean [a], the binary32 nearest to the binary64 [sum / n] *)
Definition balanced_scale (sum n : Z) : spec_float :=
  let a := to_b32 (SFdiv 53 1024 (b64 sum 0) (b64 n 0)) in
  SFdiv 24 128
    (SFdiv 24 128 (SFadd 24 128 (SFadd 24 128 a a) a) (b32 3 0)) a.

End Ieee.

(** ** Python results *)

Module Py.

Inductive exn : Type :=
| ValueError            (* tuple unpacking with the wrong number of values *)
| FloatingPointError    (* division by zero: NumPy signals it and yields a
                           non-finite value; the model stops there *)
| Cv2Error.             (* an OpenCV size or type assertion *)

Inductive result (A : Type) : Type :=
| Ok (a : A)
| Raise (e : exn).
Arguments Ok {A} a.
Arguments Raise {A} e.

#[global] Instance result_ret : MRet result := fun A a => Ok a.
#[global] Instance result_bind : MBind result := fun A B f m =>
  match m with
  | Ok a => f a
  | Raise e => Raise e
  end.

(** [b, g, r = t] *)
Definition unpack3 {A : Type} (t : list A) : result (A * A * A) :=
  match t with
  | [b; g; r] => Ok (b, g, r)
  | _ => Raise ValueError
  end.

End Py.

Import Py.

(** ** Arrays *)

(** An array of shape [(height, width, channels)]: [pixels] lists the
    [height * width] cells in row-major order, each cell being the list of
    its [channels] samples.  [ndarray Z] is a [uint8] image when its samples
    are in [0, 255]; [ndarray Q] is a [float32] array. *)
Record ndarray (A : Type) : Type := mk_ndarray {
  height : nat;
  width : nat;
  channels : nat;
  pixels : list (list A)
}.
Arguments mk_ndarray {A} _ _ _ _.
Arguments height {A} _.
Arguments width {A} _.
Arguments channels {A} _.
Arguments pixels {A} _.

Definition map_samples {A B : Type} (f : A -> B) (a : ndarray A) : ndarray B :=
  mk_ndarray (height a) (width a) (channels a)
    ((fun px : list A => f <$> px) <$> pixels a).

Definition same_size {A B : Type} (a : ndarray A) (b : ndarray B) : bool :=
  Nat.eqb (height a) (height b) && Nat.eqb (width a) (width b)
  && Nat.eqb (length (pixels a)) (length (pixels b)).

Module Np.

(** [x / y] on float32 scalars *)
Definition fdiv32 (x y : Q) : result Q :=
  if is_zero y then Raise FloatingPointError else Ok (rnd32 (x / y)).

(** [a.astype(np.float32)] on a uint8 array: every byte is a float32 *)
Definition astype_float32 (a : ndarray Z) : ndarray Q :=
  map_samples inject_Z a.

(** [np.mean(a)] on a float32 array: the samples are added up in float32
    and the sum is divided by the number of samples; NumPy does this
    division in double precision and converts the quotient back to
    float32.  The additions are taken left to right; NumPy adds in blocks
    and pairs, and every order gives the same sum as long as the partial
    sums are exact (integers below [2^24]: up to 65793 samples of at most
    255).  The mean of an empty array is not a number (NumPy warns about
    the division by zero): a fault of the model. *)
Definition sum32 (l : list Q) : Q := fold_left fadd32 l 0.

Definition mean (a : ndarray Q) : result Q :=
  let samples := concat (pixels a) in
  let n := length samples in
  if Nat.eqb n 0 then Raise FloatingPointError
  else Ok (rnd32 (rnd64 (sum32 samples / inject_Z (Z.of_nat n)))).

(** [a * s] for a float32 array and a float32 scalar *)
Definition mul_scalar (a : ndarray Q) (s : Q) : ndarray Q :=
  map_samples (fun x => fmul32 x s) a.

(** [np.clip(a, lo, hi)], that is [minimum(maximum(a, lo), hi)] *)
Definition clip (a : ndarray Q) (lo hi : Q) : ndarray Q :=
  map_samples (fun x => Qmin (Qmax x lo) hi) a.

(** [a.astype(np.uint8)] on a float32 array: a C conversion, which drops
    the fraction and keeps the low 8 bits *)
Definition astype_uint8 (a : ndarray Q) : ndarray Z :=
  map_samples (fun x => (trunc x mod 256)%Z) a.

End Np.

Module Cv2.

(** [cv2.split(m)]: one single-channel array per channel of [m] *)
Definition plane {A : Type} (m : ndarray A) (k : nat) : ndarray A :=
  mk_ndarray (height m) (width m) 1
    ((fun px => take 1 (drop k px)) <$> pixels m).

Definition split {A : Type} (m : ndarray A) : list (ndarray A) :=
  plane m <$> seq 0 (channels m).

(** [cv2.merge(mv)]: the channels of the arrays of [mv], cell by cell;
    the arrays must have the same size *)
Definition merge {A : Type} (mv : list (ndarray A)) : result (ndarray A) :=
  match mv with
  | [] => Raise Cv2Error
  | m0 :: rest =>
      if forallb (same_size m0) rest then
        Ok (fold_left
              (fun acc m =>
                 mk_ndarray (height acc) (width acc)
                   (channels acc + channels m)
                   (zip_with (@app A) (pixels acc) (pixels m)))
              rest m0)
      else Raise Cv2Error
  end.

(** [saturate_cast<uchar>(v)] for a float [v]: round to nearest, then
    saturate *)
Definition saturate_cast_uchar (v : Q) : Z :=
  Z.max 0 (Z.min 255 (rne v)).

(** [cv2.addWeighted(src1, alpha, src2, beta, gamma)] on uint8 arrays:
    [dst = saturate(src1 * alpha + src2 * beta + gamma)], evaluated in
    single precision *)
Definition weighted_sample (alpha beta gamma : Q) (x y : Z) : Z :=
  saturate_cast_uchar
    (fadd32 (fadd32 (fmul32 (inject_Z x) (rnd32 alpha))
                    (fmul32 (inject_Z y) (rnd32 beta)))
            (rnd32 gamma)).

Definition addWeighted (src1 : ndarray Z) (alpha : Q) (src2 : ndarray Z)
    (beta gamma : Q) : result (ndarray Z) :=
  if same_size src1 src2 && Nat.eqb (channels src1) (channels src2) then
    Ok (mk_ndarray (height src1) (width src1) (channels src1)
          (zip_with (zip_with (weighted_sample alpha beta gamma))
             (pixels src1) (pixels src2)))
  else Raise Cv2Error.

End Cv2.

(** ** The function *)

(** What a call hands back: the very array object it was given
    ([return image]) or an array it created. *)
Inductive returned : Type :=
| Input
| New (a : ndarray Z).

Definition value_of (image : ndarray Z) (r : returned) : ndarray Z :=
  match r with
  | Input => image
  | New a => a
  end.

(** The sample of channel [k] in cell [i] of an array, if there is one *)
Definition sample (a : ndarray Z) (i k : nat) : option Z :=
  px ← pixels a !! i; px !! k.

(** [correct_color_cast(image, strength)], correct.py lines 8 to 57.
    [strength] is a Python float.  The means, [avg_gray] and the scale
    factors are float32 scalars ([3.0] adapts to float32 in the division);
    [1.0 - strength] is a Python float. *)
Definition correct_color_cast (image : ndarray Z) (strength : Q)
    : result returned :=
  if Qeq_bool strength 0 then Ok Input
  else
    let img_float := Np.astype_float32 image in
    '(b, g, r) ← unpack3 (Cv2.split img_float);
    avg_b ← Np.mean b;
    avg_g ← Np.mean g;
    avg_r ← Np.mean r;
    avg_gray ← Np.fdiv32 (fadd32 (fadd32 avg_b avg_g) avg_r) 3;
    if is_zero avg_b || is_zero avg_g || is_zero avg_r then Ok Input
    else
      scale_b ← Np.fdiv32 avg_gray avg_b;
      scale_g ← Np.fdiv32 avg_gray avg_g;
      scale_r ← Np.fdiv32 avg_gray avg_r;
      let corrected_b := Np.mul_scalar b scale_b in
      let corrected_g := Np.mul_scalar g scale_g in
      let corrected_r := Np.mul_scalar r scale_r in
      full_corrected_img_float ←
        Cv2.merge [corrected_b; corrected_g; corrected_r];
      let full_corrected_img :=
        Np.astype_uint8 (Np.clip full_corrected_img_float 0 255) in
      if Qeq_bool strength 1 then Ok (New full_corrected_img)
      else
        blended_image ←
          Cv2.addWeighted image (fsub64 1 strength)
            full_corrected_img strength 0;
        Ok (New blended_image).

(** [avg_b], [avg_g] and [avg_r] as the function computes them, for
    [c = 0, 1, 2]: the mean of plane [c] of the float image *)
Definition channel_avg (image : ndarray Z) (c : nat) : result Q :=
  Np.mean (Cv2.plane (Np.astype_float32 image) c).

(** ** Calls on a heap of array objects

    Python passes and returns references.  A heap maps object identities to
    array values; [call_correct_color_cast h image strength] runs the
    function on the object [image] refers to.  The input object is returned
    as the same reference; a created array gets a fresh identity.  The
    temporaries of the function are unreachable after the call and are not
    recorded.  [None] means that [image] refers to no object of [h]. *)

Module Heap.

Definition loc : Type := positive.

Definition alloc (h : gmap loc (ndarray Z)) (a : ndarray Z)
    : loc * gmap loc (ndarray Z) :=
  let l := fresh (dom h) in (l, <[l := a]> h).

Definition call_correct_color_cast (h : gmap loc (ndarray Z))
    (image : loc) (strength : Q)
    : option (result loc * gmap loc (ndarray Z)) :=
  a ← h !! image;
  Some (match correct_color_cast a strength with
        | Ok Input => (Ok image, h)
        | Ok (New v) => let '(l, h') := alloc h v in (Ok l, h')
        | Raise e => (Raise e, h)
        end).

(** An in-place write to the array object [l], such as [a[...] = v] *)
Definition write (h : gmap loc (ndarray Z)) (l : loc) (v : ndarray Z)
    : gmap loc (ndarray Z) :=
  <[l := v]> h.

End Heap.

(** ** Valid images *)

Definition is_uint8 (x : Z) : Prop := (0 <= x <= 255)%Z.

(** The cells of [a] agree with its shape. *)
Definition well_shaped {A : Type} (a : ndarray A) : Prop :=
  length (pixels a) = (height a * width a)%nat
  /\ Forall (fun px => length px = channels a) (pixels a).

(** A uint8 array: all samples are bytes. *)
Definition uint8_array (a : ndarray Z) : Prop :=
  well_shaped a /\ Forall (Forall is_uint8) (pixels a).

(** The input contract of the function: a non-empty three-channel uint8
    image. *)
Definition valid_image (im : ndarray Z) : Prop :=
  uint8_array im /\ (1 <= height im)%nat /\ (1 <= width im)%nat
  /\ channels im = 3%nat.

(** ** The transform in the words of the specification

    Steps 3 to 10 of the algorithm, sample by sample. *)

Module Spec.

(** The samples of channel [c] as floats *)
Definition channel (c : nat) (im : ndarray Z) : list Q :=
  (fun px => inject_Z (nth c px 0%Z)) <$> pixels im.

(** [avg_c = mean(channel_c)] *)
Definition channel_mean (c : nat) (im : ndarray Z) : Q :=
  rnd32 (rnd64 (Np.sum32 (channel c im)
                / inject_Z (Z.of_nat (length (pixels im))))).

(** [avg_gray = (avg_0 + avg_1 + avg_2) / 3.0] *)
Definition avg_gray (im : ndarray Z) : Q :=
  rnd32 (fadd32 (fadd32 (channel_mean 0 im) (channel_mean 1 im))
                (channel_mean 2 im) / 3).

(** [scale_c = avg_gray / avg_c] *)
Definition scale (c : nat) (im : ndarray Z) : Q :=
  rnd32 (avg_gray im / channel_mean c im).

(** A sample of channel [c] multiplied by [scale_c], clipped to
    [0, 255] and truncated *)
Definition corrected_sample (im : ndarray Z) (c : nat) (x : Z) : Z :=
  trunc (Qmin (Qmax (fmul32 (inject_Z x) (scale c im)) 0) 255).

(** Steps 7 and 8: the fully corrected image *)
Definition fully_corrected (im : ndarray Z) : ndarray Z :=
  mk_ndarray (height im) (width im) 3
    (imap (corrected_sample im) <$> pixels im).

(** The blend of the original and the fully corrected image with the
    weights [1 - strength] and [strength] *)
Definition blended (im : ndarray Z) (strength : Q) : ndarray Z :=
  mk_ndarray (height im) (width im) 3
    (zip_with (zip_with (Cv2.weighted_sample (fsub64 1 strength) strength 0))
       (pixels im) (pixels (fully_corrected im))).

(** Step 5: one of the three channel means is exactly 0.0 *)
Definition some_mean_zero (im : ndarray Z) : bool :=
  is_zero (channel_mean 0 im) || is_zero (channel_mean 1 im)
  || is_zero (channel_mean 2 im).

(** Steps 1 to 10 *)
Definition correct (im : ndarray Z) (strength : Q) : returned :=
  if Qeq_bool strength 0 then Input
  else if some_mean_zero im then Input
  else if Qeq_bool strength 1 then New (fully_corrected im)
  else New (blended im strength).


End Spec.

(** ** Channel totals *)

(** The samples of channel [c] of an image, cell by cell, and their sum *)
Definition channel_samples (c : nat) (a : ndarray Z) : list Z :=
  (fun px => nth c px 0%Z) <$> pixels a.

Definition channel_total (c : nat) (a : ndarray Z) : Z :=
  foldr Z.add 0%Z (channel_samples c a).

(** The number of cells of an image, as a rational *)
Definition cell_count (a : ndarray Z) : Q :=
  inject_Z (Z.of_nat (length (pixels a))).

(** ** The application: class [ColorCorrectorApp] of correct.py

    The methods of the class that compute: [display_image] (lines 131 to
    143), [apply_correction] (lines 124 to 129), [load_image] (lines 107 to
    122) and [save_image] (lines 145 to 154).  The attributes of [self]
    and the state of the widgets the methods read or set are the fields of
    a record; the array objects live on a heap, as in [Heap].  What the
    dialogs and [cv2.imread] return is an argument of the method.  A
    picture on a panel is represented by its size: the resampling of
    [cv2.resize] and the conversion to a Tk image are not modelled. *)

Module App.

(** The exceptions of the methods: those of the function, and Python's
    [ZeroDivisionError] *)
Inductive exception : Type :=
| Core (e : Py.exn)
| ZeroDivisionError.

(** A method call returns a value or lets an exception through. *)
Inductive outcome (A : Type) : Type :=
| Returns (a : A)
| Raises (e : exception).
Arguments Returns {A} a.
Arguments Raises {A} e.

#[global] Instance outcome_ret : MRet outcome := fun A a => Returns a.
#[global] Instance outcome_bind : MBind outcome := fun A B f m =>
  match m with
  | Returns a => f a
  | Raises e => Raises e
  end.

(** [a / b] on Python ints: the quotient, correctly rounded to a float *)
Definition truediv (a b : Z) : outcome Q :=
  if (b =? 0)%Z then Raises ZeroDivisionError
  else Returns (rnd64 (inject_Z a / inject_Z b)).

(** [n * x] for an int [n] and a float [x]: the int is converted to a
    float first *)
Definition mul_int_float (n : Z) (x : Q) : Q :=
  rnd64 (rnd64 (inject_Z n) * x).

(** [cv2.resize(src, (nw, nh), interpolation=cv2.INTER_AREA)]: OpenCV
    asserts that neither the source nor the requested size is empty; the
    result has the requested size. *)
Definition resize (src : ndarray Z) (dsize : Z * Z) : outcome (Z * Z) :=
  if Nat.eqb (height src) 0 || Nat.eqb (width src) 0
     || (fst dsize <=? 0)%Z || (snd dsize <=? 0)%Z
  then Raises (Core Cv2Error)
  else Returns dsize.

(** [display_image(cv_image, panel)]: the size [(nw, nh)] of the picture
    the panel gets.  [h, w, _ = cv_image.shape] reads the height and the
    width of the image; [panel_w/w] is evaluated before [panel_h/h]; [min]
    and the two products are float operations and [int] truncates.  The
    steps after [cv2.resize] turn the resized image into a Tk picture of
    the same size. *)
Definition display_image (cv_image : ndarray Z) : outcome (Z * Z) :=
  let panel_w := 500%Z in
  let panel_h := 500%Z in
  let h := Z.of_nat (height cv_image) in
  let w := Z.of_nat (width cv_image) in
  sw ← truediv panel_w w;
  sh ← truediv panel_h h;
  let scale := Qmin sw sh in
  let nw := trunc (mul_int_float w scale) in
  let nh := trunc (mul_int_float h scale) in
  resize cv_image (nw, nh).

Inductive widget_state : Type := Disabled | Normal.

Record app : Type := mk_app {
  heap : gmap Heap.loc (ndarray Z);
  original_cv_image : option Heap.loc;
  corrected_cv_image : option Heap.loc;
  original_panel : option (Z * Z);
  corrected_panel : option (Z * Z);
  strength_slider : Z;
  strength_slider_state : widget_state;
  btn_save : widget_state
}.

(** [self.strength_slider.get() / 100.0] *)
Definition strength_val (slider : Z) : Q :=
  rnd64 (rnd64 (inject_Z slider) / 100).

(** [apply_correction(self)]: the state the call leaves, and how it ends.
    The corrected image is stored before it is displayed, so an exception
    of [display_image] leaves the new [corrected_cv_image] in place.
    [None]: an attribute refers to no object of the heap. *)
Definition apply_correction (st : app) : option (app * outcome unit) :=
  match original_cv_image st with
  | None => Some (st, Returns tt)
  | Some image =>
      '(res, h) ← Heap.call_correct_color_cast (heap st) image
                    (strength_val (strength_slider st));
      match res with
      | Raise e => Some (st, Raises (Core e))
      | Ok corrected =>
          a ← h !! corrected;
          let st1 :=
            mk_app h (original_cv_image st) (Some corrected)
              (original_panel st) (corrected_panel st) (strength_slider st)
              (strength_slider_state st) (btn_save st) in
          Some (match display_image a with
                | Raises e => (st1, Raises e)
                | Returns size =>
                    (mk_app h (original_cv_image st) (Some corrected)
                       (original_panel st) (Some size) (strength_slider st)
                       (strength_slider_state st) (btn_save st),
                     Returns tt)
                end)
      end
  end.

(** [load_image(self)].  [path] is what the file dialog returns (empty
    when it is cancelled) and [file] what [cv2.imread(path)] returns, a new
    array object or [None].  The attribute is assigned before the test
    for [None]; every exception raised after that is caught and reported.
    The second component is the exception the error box reports, if
    any. *)
Definition load_image (path : string) (file : option (ndarray Z))
    (st : app) : option (app * option exception) :=
  match path with
  | EmptyString => Some (st, None)
  | String _ _ =>
      match file with
      | None =>
          Some (mk_app (heap st) None (corrected_cv_image st)
                  (original_panel st) (corrected_panel st)
                  (strength_slider st) (strength_slider_state st)
                  (btn_save st),
                Some (Core ValueError))
      | Some a =>
          let '(image, h) := Heap.alloc (heap st) a in
          match display_image a with
          | Raises e =>
              Some (mk_app h (Some image) (corrected_cv_image st)
                      (original_panel st) (corrected_panel st)
                      (strength_slider st) (strength_slider_state st)
                      (btn_save st),
                    Some e)
          | Returns size =>
              '(st', r) ← apply_correction
                            (mk_app h (Some image) (corrected_cv_image st)
                               (Some size) (corrected_panel st)
                               (strength_slider st) Normal Normal);
              Some (st', match r with
                         | Returns _ => None
                         | Raises e => Some e
                         end)
          end
      end
  end.

(** [save_image(self)]: the file name and the image handed to
    [cv2.imwrite], if the method gets that far.  [path] is what the file
    dialog returns. *)
Definition save_image (path : string) (st : app)
    : option (option (string * ndarray Z)) :=
  match corrected_cv_image st with
  | None => Some None
  | Some corrected =>
      match path with
      | EmptyString => Some None
      | String _ _ =>
          a ← heap st !! corrected; Some (Some (path, a))
      end
  end.

(** The state [__init__] leaves: no image, nothing on the panels, the
    slider and the save button disabled.  The value of the slider is left
    open: line 95 sets it to 90 on a scale that is disabled at that
    point, and the properties below hold for every value from 0 to 100. *)
Definition init (slider : Z) : app :=
  mk_app ∅ None None None None slider Disabled Disabled.

(** What the user does: pick a file in the load dialog, drag the slider
    to a value, or pick a name in the save dialog. *)
Inductive event : Type :=
| LoadImage (path : string) (file : option (ndarray Z))
| MoveSlider (value : Z)
| SaveImage (path : string).

(** Tk runs the command of a widget that is not disabled: [load_image]
    for the load button, [apply_correction] for the slider once it has
    taken the new value (from 0 to 100), [save_image] for the save
    button.  An exception in a command is reported and the event loop
    goes on. *)
Definition step (st : app) (ev : event) : option app :=
  match ev with
  | LoadImage path file => fst <$> load_image path file st
  | MoveSlider value =>
      match strength_slider_state st with
      | Disabled => Some st
      | Normal =>
          fst <$> apply_correction
                    (mk_app (heap st) (original_cv_image st)
                       (corrected_cv_image st) (original_panel st)
                       (corrected_panel st)
                       (Z.max 0 (Z.min 100 value))
                       (strength_slider_state st) (btn_save st))
      end
  | SaveImage path => Some st
  end.

Fixpoint run (st : app) (evs : list event) : option app :=
  match evs with
  | [] => Some st
  | ev :: evs => st' ← step st ev; run st' evs
  end.

(** What [cv2.imread] returns is nothing, or a non-empty 8-bit image with
    three channels. *)
Definition readable (ev : event) : Prop :=
  match ev with
  | LoadImage _ (Some a) => valid_image a
  | _ => True
  end.

(** The attribute [ref] is [None] or refers to a valid image of the
    heap. *)
Definition refers_to_image (st : app) (ref : option Heap.loc) : Prop :=
  forall l, ref = Some l -> exists a, heap st !! l = Some a /\ valid_image a.

(** The state invariant of the application *)
Definition consistent (st : app) : Prop :=
  refers_to_image st (original_cv_image st)
  /\ refers_to_image st (corrected_cv_image st)
  /\ strength_slider_state st = btn_save st
  /\ (btn_save st = Normal <-> corrected_cv_image st <> None)
  /\ (0 <= strength_slider st <= 100)%Z.

End App.

(** ** Example images *)

Module Examples.

(** A 2x2 image with channel means 100, 150 and 200 *)
Definition cast_2x2 : ndarray Z :=
  mk_ndarray 2 2 3
    [[100; 150; 200]; [90; 160; 210]; [110; 140; 190]; [100; 150; 200]]%Z.

(** A 1x2 image whose channel 1 is entirely black *)
Definition black_channel_1x2 : ndarray Z :=
  mk_ndarray 1 2 3 [[10; 0; 30]; [20; 0; 40]]%Z.



(** A 1x5 gray image: every cell has three equal samples, every channel
    has mean 1.8 *)
Definition gray_1x5 : ndarray Z :=
  mk_ndarray 1 5 3 [[1; 1; 1]; [2; 2; 2]; [2; 2; 2]; [2; 2; 2]; [2; 2; 2]]%Z.

(** A 2x2 image with channel means 64, 65 and 66, whose first sample 129
    is corrected to 131 *)
Definition shifted_2x2 : ndarray Z :=
  mk_ndarray 2 2 3 [[129; 65; 66]; [127; 65; 66]; [0; 65; 66]; [0; 65; 66]]%Z.

End Examples.

(** ** Example states of the application *)

Module AppExamples.

(** An image 1 cell wide and 501 cells high *)
Definition tall_501x1 : ndarray Z :=
  mk_ndarray 501 1 3 (replicate 501 [10; 20; 30]%Z).

(** A 19x19 image *)
Definition square_19x19 : ndarray Z :=
  mk_ndarray 19 19 3 (replicate 361 [10; 20; 30]%Z).

(** The application after loading the 2x2 example with the slider at 90,
    before the correction is applied *)
Definition loaded_2x2 : App.app :=
  App.mk_app {[ 1%positive := Examples.cast_2x2 ]} (Some 1%positive) None
    (Some (500, 500)%Z) None 90 App.Normal App.Normal.

(** A session: a load, the slider dragged to 50, a load that fails and a
    save *)
Definition session : list App.event :=
  [App.LoadImage "photo.png" (Some Examples.cast_2x2); App.MoveSlider 50;
   App.LoadImage "missing.png" None; App.SaveImage "out.png"].

End AppExamples.

(** Validity of a concrete image, by evaluation. *)
Ltac valid_concrete :=
  unfold valid_image, uint8_array, well_shaped, is_uint8; simpl;
  repeat split; repeat constructor; lia.

(** * Properties *)

#[local] Arguments rnd32 : simpl never.
#[local] Arguments rnd64 : simpl never.
#[local] Arguments fadd32 : simpl never.
#[local] Arguments fmul32 : simpl never.
#[local] Arguments fsub64 : simpl never.
#[local] Arguments is_zero : simpl never.
#[local] Arguments trunc : simpl never.
#[local] Arguments Qmin : simpl never.
#[local] Arguments Qmax : simpl never.
#[local] Arguments Z.modulo : simpl never.
#[local] Arguments inject_Z : simpl never.
#[local] Arguments Np.sum32 : simpl never.

(** ** Clipping and conversion to uint8 *)

Section Saturation.

Lemma clip_range (v : Q) : 0 <= Qmin (Qmax v 0) 255 <= 255.
Proof.
  split.
  - apply Q.min_glb; [apply Q.le_max_r | discriminate].
  - apply Q.le_min_r.
Qed.

Lemma trunc_nonneg (x : Q) : 0 <= x -> trunc x = Qfloor x.
Proof.
  intros Hx. unfold trunc.
  destruct (Qle_bool 0 x) eqn:E; [reflexivity|].
  apply Qle_bool_iff in Hx. congruence.
Qed.

Lemma trunc_clip_range (v : Q) :
  is_uint8 (trunc (Qmin (Qmax v 0) 255)).
Proof.
  destruct (clip_range v) as [H0 H255].
  rewrite trunc_nonneg by exact H0.
  split.
  - change 0%Z with (Qfloor 0). apply Qfloor_resp_le. exact H0.
  - change 255%Z with (Qfloor 255). apply Qfloor_resp_le. exact H255.
Qed.

(** After clipping, the conversion to uint8 never wraps. *)
Lemma astype_uint8_clip (v : Q) :
  (trunc (Qmin (Qmax v 0) 255) mod 256)%Z = trunc (Qmin (Qmax v 0) 255).
Proof.
  pose proof (trunc_clip_range v) as H. unfold is_uint8 in H.
  apply Z.mod_small. lia.
Qed.

Lemma saturate_cast_range (v : Q) : is_uint8 (Cv2.saturate_cast_uchar v).
Proof. unfold is_uint8, Cv2.saturate_cast_uchar. lia. Qed.

End Saturation.

(** ** Results *)

Section Results.

Lemma bind_Ok {A B : Type} (a : A) (f : A -> result B) : (Ok a ≫= f) = f a.
Proof. reflexivity. Qed.

Lemma unpack3_three {A : Type} (b g r : A) :
  unpack3 [b; g; r] = Ok (b, g, r).
Proof. reflexivity. Qed.


Lemma fdiv32_nonzero (x y : Q) :
  is_zero y = false -> Np.fdiv32 x y = Ok (rnd32 (x / y)).
Proof. intros H. unfold Np.fdiv32. rewrite H. reflexivity. Qed.

(** A division by a zero float is a fault of the model. *)
Lemma fdiv32_zero (x y : Q) :
  is_zero y = true -> Np.fdiv32 x y = Raise FloatingPointError.
Proof. intros H. unfold Np.fdiv32. rewrite H. reflexivity. Qed.

End Results.

(** ** The function computes the transform of the specification *)

Section Refinement.

Lemma split_three {A : Type} (m : ndarray A) :
  channels m = 3%nat ->
  Cv2.split m = [Cv2.plane m 0; Cv2.plane m 1; Cv2.plane m 2].
Proof. intros H. unfold Cv2.split. rewrite H. reflexivity. Qed.


Lemma valid_pixels_nonempty (im : ndarray Z) :
  valid_image im -> pixels im <> [].
Proof.
  intros [[[Hlen _] _] [Hh [Hw _]]] E. rewrite E in Hlen. simpl in Hlen.
  destruct (height im), (width im); simpl in *; lia.
Qed.

Lemma valid_pixels_three (im : ndarray Z) :
  valid_image im -> Forall (fun px => length px = 3%nat) (pixels im).
Proof.
  intros [[[_ Hpx] _] [_ [_ Hc]]]. rewrite Hc in Hpx. exact Hpx.
Qed.

(** The samples of plane [c] of the float image are channel [c]. *)
Lemma plane_samples (im : ndarray Z) (c : nat) :
  Forall (fun px => length px = 3%nat) (pixels im) -> (c < 3)%nat ->
  concat (pixels (Cv2.plane (Np.astype_float32 im) c)) = Spec.channel c im.
Proof.
  intros Hpx Hc. unfold Spec.channel. simpl.
  induction Hpx as [|px l Hlen _ IH]; [reflexivity|].
  csimpl. rewrite IH.
  destruct px as [|x [|y [|z [|? ?]]]]; try discriminate.
  destruct c as [|[|[|c]]]; try lia; reflexivity.
Qed.

Lemma channel_length (c : nat) (im : ndarray Z) :
  length (Spec.channel c im) = length (pixels im).
Proof. unfold Spec.channel. apply length_fmap. Qed.

Lemma mean_plane (im : ndarray Z) (c : nat) :
  Forall (fun px => length px = 3%nat) (pixels im) -> (c < 3)%nat ->
  pixels im <> [] ->
  Np.mean (Cv2.plane (Np.astype_float32 im) c) = Ok (Spec.channel_mean c im).
Proof.
  intros Hpx Hc Hne. unfold Np.mean.
  rewrite plane_samples by assumption.
  rewrite channel_length. unfold Spec.channel_mean.
  destruct (length (pixels im)) eqn:E; [|reflexivity].
  apply length_zero_iff_nil in E. contradiction.
Qed.

(** On a valid image the means of the function are the channel means of
    the specification. *)
Lemma channel_avg_valid (im : ndarray Z) (c : nat) :
  valid_image im -> (c < 3)%nat ->
  channel_avg im c = Ok (Spec.channel_mean c im).
Proof.
  intros Hv Hc. apply mean_plane;
    [apply valid_pixels_three | | apply valid_pixels_nonempty]; assumption.
Qed.

Lemma fdiv32_avg_gray (im : ndarray Z) :
  Np.fdiv32 (fadd32 (fadd32 (Spec.channel_mean 0 im) (Spec.channel_mean 1 im))
               (Spec.channel_mean 2 im)) 3
  = Ok (Spec.avg_gray im).
Proof. apply fdiv32_nonzero. reflexivity. Qed.

Lemma fdiv32_scale (im : ndarray Z) (c : nat) :
  is_zero (Spec.channel_mean c im) = false ->
  Np.fdiv32 (Spec.avg_gray im) (Spec.channel_mean c im) = Ok (Spec.scale c im).
Proof. apply fdiv32_nonzero. Qed.

(** The three scaled planes, merged: every sample of channel [c] is
    multiplied by the scale of its channel. *)
Lemma merge_scaled_planes (im : ndarray Z) (sb sg sr : Q) :
  Forall (fun px => length px = 3%nat) (pixels im) ->
  Cv2.merge
    [Np.mul_scalar (Cv2.plane (Np.astype_float32 im) 0) sb;
     Np.mul_scalar (Cv2.plane (Np.astype_float32 im) 1) sg;
     Np.mul_scalar (Cv2.plane (Np.astype_float32 im) 2) sr]
  = Ok (mk_ndarray (height im) (width im) 3
          (imap (fun c x => fmul32 (inject_Z x) (nth c [sb; sg; sr] 0))
             <$> pixels im)).
Proof.
  intros Hpx. unfold Cv2.merge, same_size. simpl.
  rewrite !length_fmap, !Nat.eqb_refl. simpl.
  f_equal. f_equal.
  induction Hpx as [|px l Hlen _ IH]; [reflexivity|].
  destruct px as [|x [|y [|z [|? ?]]]]; try discriminate.
  csimpl. rewrite IH. reflexivity.
Qed.

Lemma clip_astype_corrected (im : ndarray Z) :
  Forall (fun px => length px = 3%nat) (pixels im) ->
  Np.astype_uint8
    (Np.clip
       (mk_ndarray (height im) (width im) 3
          (imap (fun c x => fmul32 (inject_Z x)
                   (nth c [Spec.scale 0 im; Spec.scale 1 im;
                           Spec.scale 2 im] 0))
             <$> pixels im)) 0 255)
  = Spec.fully_corrected im.
Proof.
  intros Hpx.
  unfold Np.astype_uint8, Np.clip, map_samples, Spec.fully_corrected.
  simpl. f_equal.
  induction Hpx as [|px l Hlen _ IH]; [reflexivity|].
  csimpl. rewrite IH. f_equal.
  destruct px as [|x [|y [|z [|? ?]]]]; try discriminate.
  csimpl. unfold Spec.corrected_sample.
  rewrite !astype_uint8_clip. reflexivity.
Qed.

Lemma fully_corrected_length (im : ndarray Z) :
  length (pixels (Spec.fully_corrected im)) = length (pixels im).
Proof. simpl. apply length_fmap. Qed.

Lemma addWeighted_corrected (im : ndarray Z) (s : Q) :
  channels im = 3%nat ->
  Cv2.addWeighted im (fsub64 1 s) (Spec.fully_corrected im) s 0
  = Ok (Spec.blended im s).
Proof.
  intros Hc. unfold Cv2.addWeighted, same_size.
  rewrite fully_corrected_length, !Nat.eqb_refl, Hc. reflexivity.
Qed.

(** On a valid image the function returns what the specification's
    algorithm returns, and raises nothing. *)
Lemma correct_color_cast_spec (im : ndarray Z) (s : Q) :
  valid_image im ->
  correct_color_cast im s = Ok (Spec.correct im s).
Proof.
  intros Hv.
  pose proof (valid_pixels_nonempty im Hv) as Hne.
  pose proof (valid_pixels_three im Hv) as Hpx.
  unfold correct_color_cast, Spec.correct.
  destruct (Qeq_bool s 0); [reflexivity|].
  rewrite split_three by (simpl; apply Hv).
  rewrite unpack3_three, bind_Ok.
  rewrite !mean_plane by (assumption || lia).
  rewrite !bind_Ok.
  rewrite fdiv32_avg_gray, bind_Ok.
  unfold Spec.some_mean_zero.
  destruct (is_zero (Spec.channel_mean 0 im)) eqn:Ez0; [reflexivity|].
  destruct (is_zero (Spec.channel_mean 1 im)) eqn:Ez1; [reflexivity|].
  destruct (is_zero (Spec.channel_mean 2 im)) eqn:Ez2; [reflexivity|].
  rewrite !fdiv32_scale by assumption.
  rewrite !bind_Ok.
  rewrite merge_scaled_planes by assumption.
  rewrite bind_Ok.
  rewrite clip_astype_corrected by assumption.
  destruct (Qeq_bool s 1); [reflexivity|].
  rewrite addWeighted_corrected by apply Hv.
  reflexivity.
Qed.

End Refinement.

(** ** Shape and range of the returned image *)

Section Output.

Lemma weighted_samples_uint8 (alpha beta gamma : Q) (a b : list Z) :
  Forall is_uint8 (zip_with (Cv2.weighted_sample alpha beta gamma) a b).
Proof.
  revert b. induction a as [|x a IH]; intros [|y b]; simpl; constructor.
  - apply saturate_cast_range.
  - apply IH.
Qed.

Lemma corrected_samples_uint8 (im : ndarray Z) (px : list Z) :
  Forall is_uint8 (imap (Spec.corrected_sample im) px).
Proof.
  apply Forall_forall. intros x Hx.
  apply elem_of_lookup_imap_1 in Hx as (i & y & -> & _).
  apply trunc_clip_range.
Qed.

Lemma fully_corrected_valid (im : ndarray Z) :
  valid_image im -> valid_image (Spec.fully_corrected im).
Proof.
  intros Hv. pose proof (valid_pixels_three im Hv) as Hpx.
  destruct Hv as [[[Hlen _] _] [Hh [Hw Hc]]].
  repeat split; simpl; try assumption.
  - rewrite length_fmap. exact Hlen.
  - apply Forall_fmap. eapply Forall_impl; [exact Hpx|].
    intros px Hl. simpl. rewrite length_imap. exact Hl.
  - apply Forall_fmap. apply Forall_forall. intros px _. simpl.
    apply corrected_samples_uint8.
Qed.

Lemma blended_pixels (w : Z -> Z -> Z) (g : list Z -> list Z)
    (l : list (list Z)) :
  (forall px, length (g px) = length px) ->
  Forall (fun px => length px = 3%nat) l ->
  Forall (fun px => length px = 3%nat) (zip_with (zip_with w) l (g <$> l)).
Proof.
  intros Hg Hl. induction Hl as [|px l Hpx _ IH]; csimpl; constructor.
  - rewrite length_zip_with_l_eq; [exact Hpx | symmetry; apply Hg].
  - exact IH.
Qed.

Lemma blended_valid (im : ndarray Z) (s : Q) :
  valid_image im -> valid_image (Spec.blended im s).
Proof.
  intros Hv. pose proof (valid_pixels_three im Hv) as Hpx.
  destruct Hv as [[[Hlen _] _] [Hh [Hw Hc]]].
  repeat split; simpl; try assumption.
  - rewrite length_zip_with_l_eq; [exact Hlen|].
    rewrite length_fmap. reflexivity.
  - apply blended_pixels; [apply length_imap | exact Hpx].
  - apply Forall_forall. intros px Hin.
    apply elem_of_zip_with in Hin as (a & b & -> & _ & _).
    apply weighted_samples_uint8.
Qed.

Lemma spec_correct_valid (im : ndarray Z) (s : Q) :
  valid_image im ->
  let out := value_of im (Spec.correct im s) in
  valid_image out /\ height out = height im /\ width out = width im
  /\ channels out = channels im.
Proof.
  intros Hv. unfold Spec.correct.
  assert (Hc : channels im = 3%nat) by apply Hv.
  destruct (Qeq_bool s 0); [simpl; auto|].
  destruct (Spec.some_mean_zero im); [simpl; auto|].
  destruct (Qeq_bool s 1); simpl.
  - split; [apply fully_corrected_valid; exact Hv | auto].
  - split; [apply blended_valid; exact Hv | auto].
Qed.

End Output.

(** ** An entirely black channel has mean zero *)

Section BlackChannel.

Lemma round_zero (prec emin : Z) (x : Q) : x == 0 -> round prec emin x = 0.
Proof.
  intros H. unfold round.
  apply Qeq_bool_iff in H. rewrite H. reflexivity.
Qed.

Lemma sum32_zeros (l : list Q) :
  Forall (fun x => x = 0) l -> Np.sum32 l = 0.
Proof.
  unfold Np.sum32. induction 1 as [|x l -> _ IH]; [reflexivity|].
  simpl. exact IH.
Qed.

Lemma black_channel_mean (im : ndarray Z) (c : nat) :
  Forall (fun px => nth c px 0%Z = 0%Z) (pixels im) ->
  Spec.channel_mean c im = 0.
Proof.
  intros Hb. unfold Spec.channel_mean.
  rewrite sum32_zeros.
  - unfold rnd64. rewrite round_zero; [reflexivity|].
    unfold Qdiv. apply Qmult_0_l.
  - unfold Spec.channel. apply Forall_fmap.
    eapply Forall_impl; [exact Hb|]. intros px Hpx. simpl.
    rewrite Hpx. reflexivity.
Qed.

End BlackChannel.

(** ** Error bounds of the floating-point rounding *)

Section FloatBounds.

Lemma pow2_pos (e : Z) : 0 < pow2 e.
Proof. apply Qpower_0_lt. reflexivity. Qed.

Lemma pow2_add (a b : Z) : pow2 (a + b) == pow2 a * pow2 b.
Proof. apply Qpower_plus. discriminate. Qed.

Lemma pow2_opp (a : Z) : pow2 (- a) == / pow2 a.
Proof. apply Qpower_opp. Qed.

Lemma pow2_le (a b : Z) : (a <= b)%Z -> pow2 a <= pow2 b.
Proof. intros H. apply Qpower_le_compat_l; [exact H | discriminate]. Qed.

Lemma pow2_lt_inv (a b : Z) : pow2 a < pow2 b -> (a < b)%Z.
Proof. intros H. eapply Qpower_lt_compat_l_inv; [exact H | reflexivity]. Qed.

Lemma pow2_le_inv (a b : Z) : pow2 a <= pow2 b -> (a <= b)%Z.
Proof. intros H. eapply Qpower_le_compat_l_inv; [exact H | reflexivity]. Qed.

Lemma pow2_nonneg_Z (a : Z) : (0 <= a)%Z -> pow2 a == inject_Z (2 ^ a).
Proof.
  intros H. unfold pow2. rewrite Zpower_Qpower by exact H. reflexivity.
Qed.

Lemma pow2_cancel (a : Z) : pow2 a * pow2 (- a) == 1.
Proof. rewrite <- pow2_add. rewrite Z.add_opp_diag_r. reflexivity. Qed.

Lemma pow2_sub_frac (a b : Z) :
  (0 <= a)%Z -> (0 <= b)%Z -> pow2 (a - b) == (2 ^ a)%Z # Z.to_pos (2 ^ b).
Proof.
  intros Ha Hb. rewrite <- Z.add_opp_r, pow2_add, pow2_opp.
  rewrite !pow2_nonneg_Z by assumption.
  rewrite (Qmake_Qdiv (2 ^ a)).
  rewrite Z2Pos.id by (apply Z.pow_pos_nonneg; lia).
  reflexivity.
Qed.

Lemma Qabs_make (n : Z) (d : positive) : Qabs (n # d) = (Z.abs n # d).
Proof. reflexivity. Qed.

(** [ilog2] is the binary exponent. *)
Lemma ilog2_spec (x : Q) :
  ~ x == 0 -> pow2 (ilog2 x) <= Qabs x /\ Qabs x < pow2 (ilog2 x + 1).
Proof.
  destruct x as [n d]. intros Hx.
  assert (Hn : (0 < Z.abs n)%Z).
  { destruct (Z.eq_dec n 0%Z) as [->|Hn]; [|lia].
    exfalso. apply Hx. reflexivity. }
  unfold ilog2. rewrite Qabs_make. cbn [Qnum Qden].
  set (A := Z.abs n) in *. set (ln := Z.log2 A). set (ld := Z.log2 (Z.pos d)).
  assert (HA : (2 ^ ln <= A < 2 ^ (ln + 1))%Z) by (apply Z.log2_spec; exact Hn).
  assert (HD : (2 ^ ld <= Z.pos d < 2 ^ (ld + 1))%Z)
    by (apply Z.log2_spec; lia).
  assert (Hln : (0 <= ln)%Z) by apply Z.log2_nonneg.
  assert (Hld : (0 <= ld)%Z) by apply Z.log2_nonneg.
  assert (Hup : A # d < pow2 (ln - ld + 1)).
  { replace (ln - ld + 1)%Z with ((ln + 1) - ld)%Z by lia.
    rewrite pow2_sub_frac by lia. unfold Qlt. cbn [Qnum Qden].
    rewrite Z2Pos.id by (apply Z.pow_pos_nonneg; lia). nia. }
  assert (Hlo : pow2 (ln - ld - 1) <= A # d).
  { replace (ln - ld - 1)%Z with (ln - (ld + 1))%Z by lia.
    rewrite pow2_sub_frac by lia. unfold Qle. cbn [Qnum Qden].
    rewrite Z2Pos.id by (apply Z.pow_pos_nonneg; lia). nia. }
  destruct (Qle_bool (pow2 (ln - ld)) (A # d)) eqn:E.
  - apply Qle_bool_iff in E. split; assumption.
  - split; [exact Hlo|].
    replace (ln - ld - 1 + 1)%Z with (ln - ld)%Z by lia.
    apply Qnot_le_lt. intros H. apply Qle_bool_iff in H. congruence.
Qed.

Lemma ilog2_lower (x : Q) (k : Z) : pow2 k <= Qabs x -> (k <= ilog2 x)%Z.
Proof.
  intros H.
  assert (Hx : ~ x == 0).
  { intros E. assert (E' : Qabs x == 0) by (rewrite E; reflexivity).
    pose proof (pow2_pos k). lra. }
  destruct (ilog2_spec x Hx) as [_ Hup].
  assert (Hlt : pow2 k < pow2 (ilog2 x + 1))
    by (eapply Qle_lt_trans; eassumption).
  apply pow2_lt_inv in Hlt. lia.
Qed.

Lemma rne_floor (y : Q) : (Qfloor y <= rne y <= Qfloor y + 1)%Z.
Proof.
  unfold rne.
  destruct (Qcompare (y - inject_Z (Qfloor y)) (1 # 2));
    [destruct (Z.even (Qfloor y))|..]; lia.
Qed.

Lemma rne_error (y : Q) : Qabs (inject_Z (rne y) - y) <= 1 # 2.
Proof.
  pose proof (Qfloor_le y) as Hlo. pose proof (Qlt_floor y) as Hhi.
  rewrite inject_Z_plus in Hhi. change (inject_Z 1) with 1 in Hhi.
  apply Qabs_Qle_condition. unfold rne.
  destruct (Qcompare (y - inject_Z (Qfloor y)) (1 # 2)) eqn:E.
  - apply Qeq_alt in E.
    destruct (Z.even (Qfloor y)); rewrite ?inject_Z_plus;
      change (inject_Z 1) with 1; lra.
  - apply Qlt_alt in E. lra.
  - apply Qgt_alt in E. rewrite inject_Z_plus.
    change (inject_Z 1) with 1. lra.
Qed.

Lemma rne_half (y : Q) :
  y - (1 # 2) <= inject_Z (rne y) <= y + (1 # 2).
Proof.
  pose proof (rne_error y) as H. apply Qabs_Qle_condition in H. lra.
Qed.

Lemma rne_lower (n : Z) (y : Q) : inject_Z n <= y -> (n <= rne y)%Z.
Proof.
  intros H. apply Qfloor_resp_le in H. rewrite Qfloor_Z in H.
  pose proof (rne_floor y). lia.
Qed.

Lemma rne_shift (x y : Q) : x < y + 1 -> (rne x <= rne y + 1)%Z.
Proof.
  intros H. pose proof (rne_half x) as Hx. pose proof (rne_half y) as Hy.
  assert (Hlt : inject_Z (rne x) < inject_Z (rne y + 2)).
  { rewrite inject_Z_plus. change (inject_Z 2) with 2. lra. }
  rewrite <- Zlt_Qlt in Hlt. lia.
Qed.

Lemma rne_between (n m : Z) (t : Q) :
  inject_Z n - (1 # 2) < t -> t < inject_Z m + (1 # 2) ->
  (n <= rne t <= m)%Z.
Proof.
  intros Hn Hm. pose proof (rne_half t) as Ht. split.
  - assert (Hlt : inject_Z (n - 1) < inject_Z (rne t)).
    { unfold Z.sub. rewrite inject_Z_plus. change (inject_Z (- (1))) with (-1).
      lra. }
    rewrite <- Zlt_Qlt in Hlt. lia.
  - assert (Hlt : inject_Z (rne t) < inject_Z (m + 1)).
    { rewrite inject_Z_plus. change (inject_Z 1) with 1. lra. }
    rewrite <- Zlt_Qlt in Hlt. lia.
Qed.

Lemma round_nonzero (prec emin : Z) (x : Q) :
  ~ x == 0 ->
  round prec emin x
  == inject_Z (rne (x * pow2 (- ulp_exp prec emin x)))
     * pow2 (ulp_exp prec emin x).
Proof.
  intros Hx. unfold round.
  destruct (Qeq_bool x 0) eqn:E.
  - apply Qeq_bool_iff in E. contradiction.
  - apply Qred_correct.
Qed.

(** Floats are kept in lowest terms: equal floats are the same term. *)
Lemma round_canonical (prec emin : Z) (x : Q) :
  Qred (round prec emin x) = round prec emin x.
Proof.
  unfold round. destruct (Qeq_bool x 0); [reflexivity|].
  apply Qred_involutive.
Qed.

Lemma round_nonneg (prec emin : Z) (x : Q) :
  0 <= x -> 0 <= round prec emin x.
Proof.
  intros Hx. destruct (Qeq_dec x 0) as [E|E].
  - rewrite round_zero by exact E. apply Qle_refl.
  - rewrite round_nonzero by exact E.
    apply Qmult_le_0_compat; [|apply Qlt_le_weak, pow2_pos].
    change 0 with (inject_Z 0). rewrite <- Zle_Qle.
    apply rne_lower. apply Qmult_le_0_compat; [exact Hx|].
    apply Qlt_le_weak, pow2_pos.
Qed.

(** In the normal range the ulp exponent is [ilog2 x - (prec - 1)]. *)
Lemma ulp_exp_normal (prec emin : Z) (x : Q) :
  pow2 (emin + prec - 1) <= Qabs x ->
  ulp_exp prec emin x = (ilog2 x - (prec - 1))%Z.
Proof.
  intros H. apply ilog2_lower in H. unfold ulp_exp. lia.
Qed.

(** Rounding preserves a lower bound that is a power of two. *)
Lemma round_lower (prec emin k : Z) (x : Q) :
  (1 <= prec)%Z -> (emin + prec - 1 <= k)%Z ->
  pow2 k <= x -> pow2 k <= round prec emin x.
Proof.
  intros Hp Hk Hx.
  pose proof (pow2_pos k) as Hk0.
  assert (Hx0 : 0 <= x) by lra.
  assert (Habs : Qabs x == x) by (apply Qabs_pos; exact Hx0).
  assert (Hne : ~ x == 0) by lra.
  assert (Hkx : (k <= ilog2 x)%Z)
    by (apply ilog2_lower; rewrite Habs; exact Hx).
  rewrite round_nonzero by exact Hne.
  rewrite ulp_exp_normal.
  2:{ rewrite Habs. eapply Qle_trans; [apply pow2_le|exact Hx]. exact Hk. }
  set (e := (ilog2 x - (prec - 1))%Z).
  destruct (ilog2_spec x Hne) as [Hlo _]. rewrite Habs in Hlo.
  assert (Hy : inject_Z (2 ^ (prec - 1)) <= x * pow2 (- e)).
  { rewrite <- pow2_nonneg_Z by lia.
    replace (prec - 1)%Z with (ilog2 x + - e)%Z by (unfold e; lia).
    rewrite pow2_add. apply Qmult_le_compat_r; [exact Hlo|].
    apply Qlt_le_weak, pow2_pos. }
  apply rne_lower in Hy. rewrite Zle_Qle in Hy.
  rewrite <- pow2_nonneg_Z in Hy by lia.
  eapply Qle_trans; [apply (pow2_le k (ilog2 x)); exact Hkx|].
  replace (ilog2 x) with ((prec - 1) + e)%Z at 1 by (unfold e; lia).
  rewrite pow2_add. apply Qmult_le_compat_r; [exact Hy|].
  apply Qlt_le_weak, pow2_pos.
Qed.

(** The rounding error is at most half a unit in the last place. *)
Lemma round_ulp_error (prec emin : Z) (x : Q) :
  ~ x == 0 ->
  Qabs (round prec emin x - x) <= pow2 (ulp_exp prec emin x - 1).
Proof.
  intros Hne. rewrite round_nonzero by exact Hne.
  set (e := ulp_exp prec emin x). set (y := x * pow2 (- e)).
  assert (Hxy : x == y * pow2 e).
  { unfold y. rewrite <- Qmult_assoc, (Qmult_comm (pow2 (- e))), pow2_cancel.
    ring. }
  assert (Hd : inject_Z (rne y) * pow2 e - x
               == (inject_Z (rne y) - y) * pow2 e).
  { rewrite Hxy at 1. ring. }
  rewrite Hd, Qabs_Qmult.
  rewrite (Qabs_pos (pow2 e)) by apply Qlt_le_weak, pow2_pos.
  apply Qle_trans with ((1 # 2) * pow2 e).
  - apply Qmult_le_compat_r; [apply rne_error|].
    apply Qlt_le_weak, pow2_pos.
  - replace (e - 1)%Z with (-1 + e)%Z by lia.
    rewrite pow2_add. apply Qle_refl.
Qed.

(** In the normal range the relative rounding error is at most
    [2^(-prec)]. *)
Lemma round_error (prec emin : Z) (x : Q) :
  pow2 (emin + prec - 1) <= Qabs x ->
  Qabs (round prec emin x - x) <= pow2 (- prec) * Qabs x.
Proof.
  intros Hx.
  assert (Hne : ~ x == 0).
  { intros E. assert (E' : Qabs x == 0) by (rewrite E; reflexivity).
    pose proof (pow2_pos (emin + prec - 1)). lra. }
  eapply Qle_trans; [apply round_ulp_error; exact Hne|].
  rewrite ulp_exp_normal by exact Hx.
  replace (ilog2 x - (prec - 1) - 1)%Z with (- prec + ilog2 x)%Z by lia.
  rewrite pow2_add.
  apply Qmult_le_l; [apply pow2_pos | apply ilog2_spec; exact Hne].
Qed.

(** Absolute rounding error of a number of magnitude at most [2^k]. *)
Lemma round_abs_error (prec emin k : Z) (x : Q) :
  (emin + prec - 1 <= k)%Z -> Qabs x <= pow2 k ->
  Qabs (round prec emin x - x) <= pow2 (k - prec).
Proof.
  intros Hk Hx. destruct (Qeq_dec x 0) as [E|Hne].
  - rewrite round_zero by exact E.
    assert (E' : Qabs (0 - x) == 0) by (rewrite E; reflexivity).
    rewrite E'. apply Qlt_le_weak, pow2_pos.
  - eapply Qle_trans; [apply round_ulp_error; exact Hne|].
    apply pow2_le. destruct (ilog2_spec x Hne) as [Hlo _].
    assert (Hi : (ilog2 x <= k)%Z)
      by (apply pow2_le_inv; eapply Qle_trans; eassumption).
    unfold ulp_exp. lia.
Qed.

Lemma rnd64_error_1 (x : Q) :
  Qabs x <= 1 -> Qabs (rnd64 x - x) <= 1 # 9007199254740992.
Proof. intros H. apply (round_abs_error 53 (-1074) 0 x); [lia | exact H]. Qed.

Lemma rnd32_error_2 (x : Q) :
  Qabs x <= 2 -> Qabs (rnd32 x - x) <= 1 # 8388608.
Proof. intros H. apply (round_abs_error 24 (-149) 1 x); [lia | exact H]. Qed.

Lemma rnd32_error_256 (x : Q) :
  Qabs x <= 256 -> Qabs (rnd32 x - x) <= 1 # 65536.
Proof. intros H. apply (round_abs_error 24 (-149) 8 x); [lia | exact H]. Qed.

Lemma rnd32_error_1024 (x : Q) :
  Qabs x <= 1024 -> Qabs (rnd32 x - x) <= 1 # 16384.
Proof. intros H. apply (round_abs_error 24 (-149) 10 x); [lia | exact H]. Qed.

End FloatBounds.

(** ** Balanced images *)

Section Balanced.

Lemma pow2_m24 : pow2 (-24) == 1 # 16777216.
Proof. reflexivity. Qed.

(** binary32 rounding of a normal positive number, as a relative error *)
Lemma rnd32_relative (x : Q) :
  pow2 (-126) <= x ->
  (1 - (1 # 16777216)) * x <= rnd32 x <= (1 + (1 # 16777216)) * x.
Proof.
  intros Hx. pose proof (pow2_pos (-126)) as Hp.
  assert (Habs : Qabs x == x) by (apply Qabs_pos; lra).
  pose proof (round_error 24 (-149) x) as He.
  change (-149 + 24 - 1)%Z with (-126)%Z in He.
  rewrite Habs in He. specialize (He Hx).
  change (- (24))%Z with (-24)%Z in He. rewrite pow2_m24 in He.
  apply Qabs_Qle_condition in He. fold (rnd32 x) in He.
  lra.
Qed.

Lemma pow2_m100_m126 : pow2 (-126) * 4 <= pow2 (-100).
Proof. vm_compute. discriminate. Qed.

Lemma pow2_m126_small : pow2 (-126) <= 1 # 2.
Proof. vm_compute. discriminate. Qed.

(** The scale factor of a balanced image is within 1e-5 of 1. *)
Lemma balanced_scale (a : Q) :
  pow2 (-100) <= a ->
  1 - (1 # 100000)
  <= rnd32 (rnd32 (fadd32 (fadd32 a a) a / 3) / a)
  <= 1 + (1 # 100000).
Proof.
  intros Ha. pose proof (pow2_pos (-126)) as Hp.
  pose proof pow2_m100_m126 as H1. pose proof pow2_m126_small as H2.
  unfold fadd32.
  pose proof (rnd32_relative (a + a)) as Ht1.
  set (t1 := rnd32 (a + a)) in *.
  assert (Ht1' : (1 - (1 # 16777216)) * (a + a) <= t1
                 <= (1 + (1 # 16777216)) * (a + a)) by (apply Ht1; lra).
  clear Ht1.
  pose proof (rnd32_relative (t1 + a)) as Ht2.
  set (t2 := rnd32 (t1 + a)) in *.
  assert (Ht2' : (1 - (1 # 16777216)) * (t1 + a) <= t2
                 <= (1 + (1 # 16777216)) * (t1 + a)) by (apply Ht2; lra).
  clear Ht2.
  assert (Hd : t2 / 3 == t2 * (1 # 3)) by reflexivity.
  pose proof (rnd32_relative (t2 / 3)) as Hg.
  set (g := rnd32 (t2 / 3)) in *.
  assert (Hg' : (1 - (1 # 16777216)) * (t2 / 3) <= g
                <= (1 + (1 # 16777216)) * (t2 / 3)) by (apply Hg; lra).
  clear Hg.
  assert (Ha0 : 0 < a) by lra.
  assert (Hq : 1 - (1 # 1000000) <= g / a <= 1 + (1 # 1000000)).
  { split.
    - apply Qle_shift_div_l; [exact Ha0 | lra].
    - apply Qle_shift_div_r; [exact Ha0 | lra]. }
  pose proof (rnd32_relative (g / a)) as Hs.
  assert (Hs' : (1 - (1 # 16777216)) * (g / a) <= rnd32 (g / a)
                <= (1 + (1 # 16777216)) * (g / a)) by (apply Hs; lra).
  lra.
Qed.







Lemma valid_channel_sample (im : ndarray Z) (c : nat) (px : list Z) :
  valid_image im -> px ∈ pixels im -> (c < 3)%nat ->
  is_uint8 (nth c px 0%Z).
Proof.
  intros Hv Hin Hc.
  pose proof (valid_pixels_three im Hv) as Hpx.
  destruct Hv as [[_ Hu] _].
  rewrite Forall_forall in Hpx, Hu.
  specialize (Hpx px Hin). specialize (Hu px Hin).
  destruct px as [|x [|y [|z [|? ?]]]]; try discriminate.
  apply Forall_cons in Hu as [Hx Hu].
  apply Forall_cons in Hu as [Hy Hu].
  apply Forall_cons in Hu as [Hz _].
  destruct c as [|[|[|c]]]; try lia; assumption.
Qed.



End Balanced.


(** ** The blend of the original and the corrected image *)

Section Blend.

Lemma inject_Z_uint8 (x : Z) : is_uint8 x -> 0 <= inject_Z x <= 255.
Proof.
  intros [H0 H1]. split.
  - change 0 with (inject_Z 0). rewrite <- Zle_Qle. exact H0.
  - change 255 with (inject_Z 255). rewrite <- Zle_Qle. exact H1.
Qed.

(** The float32 weighted sum of two bytes with the weights of a strength
    in [0, 1] is within 1/1000 of the exact blend. *)
Lemma weighted_sum_error (s : Q) (o c : Z) :
  0 <= s <= 1 -> is_uint8 o -> is_uint8 c ->
  Qabs (fadd32 (fadd32 (fmul32 (inject_Z o) (rnd32 (fsub64 1 s)))
                       (fmul32 (inject_Z c) (rnd32 s)))
               (rnd32 0)
        - (inject_Z o * (1 - s) + inject_Z c * s)) <= 1 # 1000.
Proof.
  intros Hs Ho Hc.
  apply inject_Z_uint8 in Ho, Hc.
  set (X := inject_Z o) in *. set (Y := inject_Z c) in *.
  unfold fadd32, fmul32, fsub64.
  change (rnd32 0) with 0.
  pose proof (rnd64_error_1 (1 - s)) as Ha'.
  set (a' := rnd64 (1 - s)) in *.
  assert (Ha1 : Qabs (a' - (1 - s)) <= 1 # 9007199254740992)
    by (apply Ha'; apply Qabs_Qle_condition; lra).
  clear Ha'. apply Qabs_Qle_condition in Ha1.
  pose proof (rnd32_error_2 a') as Ha.
  set (a := rnd32 a') in *.
  assert (Ha2 : Qabs (a - a') <= 1 # 8388608)
    by (apply Ha; apply Qabs_Qle_condition; lra).
  clear Ha. apply Qabs_Qle_condition in Ha2.
  pose proof (rnd32_error_2 s) as Hb.
  set (b := rnd32 s) in *.
  assert (Hb2 : Qabs (b - s) <= 1 # 8388608)
    by (apply Hb; apply Qabs_Qle_condition; lra).
  clear Hb. apply Qabs_Qle_condition in Hb2.
  assert (HXa : X * (1 - s) - (1 # 10000) <= X * a
                <= X * (1 - s) + (1 # 10000)) by (split; nra).
  assert (HYb : Y * s - (1 # 10000) <= Y * b <= Y * s + (1 # 10000))
    by (split; nra).
  assert (HXs : 0 <= X * (1 - s) <= 255) by (split; nra).
  assert (HYs : 0 <= Y * s <= 255) by (split; nra).
  pose proof (rnd32_error_256 (X * a)) as Hp1.
  set (p1 := rnd32 (X * a)) in *.
  assert (Hp1' : Qabs (p1 - X * a) <= 1 # 65536)
    by (apply Hp1; apply Qabs_Qle_condition; lra).
  clear Hp1. apply Qabs_Qle_condition in Hp1'.
  pose proof (rnd32_error_256 (Y * b)) as Hp2.
  set (p2 := rnd32 (Y * b)) in *.
  assert (Hp2' : Qabs (p2 - Y * b) <= 1 # 65536)
    by (apply Hp2; apply Qabs_Qle_condition; lra).
  clear Hp2. apply Qabs_Qle_condition in Hp2'.
  pose proof (rnd32_error_1024 (p1 + p2)) as Hq.
  set (q := rnd32 (p1 + p2)) in *.
  assert (Hq' : Qabs (q - (p1 + p2)) <= 1 # 16384)
    by (apply Hq; apply Qabs_Qle_condition; lra).
  clear Hq. apply Qabs_Qle_condition in Hq'.
  pose proof (rnd32_error_1024 (q + 0)) as Ht.
  set (t := rnd32 (q + 0)) in *.
  assert (Ht' : Qabs (t - (q + 0)) <= 1 # 16384)
    by (apply Ht; apply Qabs_Qle_condition; lra).
  clear Ht. apply Qabs_Qle_condition in Ht'.
  apply Qabs_Qle_condition. lra.
Qed.


(** A blended sample, for a strength in [0, 1]: it lies between the
    original and the fully corrected sample, and it is the exact blend
    rounded to the nearest integer, up to the error of the float sum. *)
Lemma weighted_sample_spec (s : Q) (o c : Z) :
  0 <= s <= 1 -> is_uint8 o -> is_uint8 c ->
  let w := Cv2.weighted_sample (fsub64 1 s) s 0 o c in
  (Z.min o c <= w <= Z.max o c)%Z
  /\ Qabs (inject_Z w - (inject_Z o * (1 - s) + inject_Z c * s))
     <= (1 # 2) + (1 # 1000).
Proof.
  intros Hs Ho Hc w.
  pose proof (weighted_sum_error s o c Hs Ho Hc) as Ht.
  unfold w, Cv2.weighted_sample, Cv2.saturate_cast_uchar.
  set (t := fadd32 _ _) in *.
  apply Qabs_Qle_condition in Ht.
  pose proof (inject_Z_uint8 o Ho) as HX.
  pose proof (inject_Z_uint8 c Hc) as HY.
  set (X := inject_Z o) in *. set (Y := inject_Z c) in *.
  assert (Hrange : (Z.min o c <= rne t <= Z.max o c)%Z).
  { destruct (Z.le_ge_cases o c) as [Hoc|Hoc].
    - rewrite Z.min_l, Z.max_r by lia.
      assert (HXY : X <= Y) by (unfold X, Y; rewrite <- Zle_Qle; lia).
      apply rne_between; fold X; fold Y; nra.
    - rewrite Z.min_r, Z.max_l by lia.
      assert (HXY : Y <= X) by (unfold X, Y; rewrite <- Zle_Qle; lia).
      apply rne_between; fold X; fold Y; nra. }
  unfold is_uint8 in Ho, Hc.
  assert (Hsat : Z.max 0 (Z.min 255 (rne t)) = rne t) by lia.
  rewrite Hsat. split; [exact Hrange|].
  pose proof (rne_half t) as Hr.
  apply Qabs_Qle_condition. lra.
Qed.

(** Between two strengths of [0, 1] the distance of the blended sample to
    the original can step back by at most one unit. *)
Lemma weighted_sample_monotone (s1 s2 : Q) (o c : Z) :
  0 <= s1 -> s1 <= s2 -> s2 <= 1 -> is_uint8 o -> is_uint8 c ->
  (Z.abs (Cv2.weighted_sample (fsub64 1 s1) s1 0 o c - o)
   <= Z.abs (Cv2.weighted_sample (fsub64 1 s2) s2 0 o c - o) + 1)%Z.
Proof.
  intros H0 H12 H1 Ho Hc.
  destruct (weighted_sample_spec s1 o c ltac:(lra) Ho Hc) as [Hr1 He1].
  destruct (weighted_sample_spec s2 o c ltac:(lra) Ho Hc) as [Hr2 He2].
  set (w1 := Cv2.weighted_sample _ s1 _ _ _) in *.
  set (w2 := Cv2.weighted_sample _ s2 _ _ _) in *.
  apply Qabs_Qle_condition in He1, He2.
  set (X := inject_Z o) in *. set (Y := inject_Z c) in *.
  destruct (Z.le_ge_cases o c) as [Hoc|Hoc].
  - rewrite Z.min_l, Z.max_r in Hr1, Hr2 by lia.
    assert (HXY : X <= Y) by (unfold X, Y; rewrite <- Zle_Qle; lia).
    assert (Hlt : inject_Z w1 < inject_Z (w2 + 2)).
    { rewrite inject_Z_plus. change (inject_Z 2) with 2. nra. }
    rewrite <- Zlt_Qlt in Hlt. lia.
  - rewrite Z.min_r, Z.max_l in Hr1, Hr2 by lia.
    assert (HXY : Y <= X) by (unfold X, Y; rewrite <- Zle_Qle; lia).
    assert (Hlt : inject_Z w2 < inject_Z (w1 + 2)).
    { rewrite inject_Z_plus. change (inject_Z 2) with 2. nra. }
    rewrite <- Zlt_Qlt in Hlt. lia.
Qed.

End Blend.

Section BlendImage.

Lemma sample_uint8 (a : ndarray Z) (i k : nat) (x : Z) :
  Forall (Forall is_uint8) (pixels a) -> sample a i k = Some x -> is_uint8 x.
Proof.
  intros Hu Hs. unfold sample in Hs.
  destruct (pixels a !! i) as [px|] eqn:Hi; [|discriminate]. simpl in Hs.
  rewrite Forall_lookup in Hu. specialize (Hu i px Hi).
  rewrite Forall_lookup in Hu. exact (Hu k x Hs).
Qed.

Lemma sample_blended (im : ndarray Z) (s : Q) (i k : nat) (y : Z) :
  sample (Spec.blended im s) i k = Some y ->
  exists x c, sample im i k = Some x
    /\ sample (Spec.fully_corrected im) i k = Some c
    /\ y = Cv2.weighted_sample (fsub64 1 s) s 0 x c.
Proof.
  unfold sample, Spec.blended. cbn [pixels]. intros Hy.
  destruct (zip_with _ (pixels im) _ !! i) as [px|] eqn:Hi; [|discriminate].
  simpl in Hy.
  apply lookup_zip_with_Some in Hi as (p & q & -> & Hp & Hq).
  apply lookup_zip_with_Some in Hy as (x & c & -> & Hx & Hc).
  exists x, c. rewrite Hp, Hq. simpl. auto.
Qed.

End BlendImage.

(** ** Agreement with the IEEE 754 operations of the Standard Library *)

Section IeeeAgreement.

Example ieee_rounding_samples :
  Ieee.to_Q (SFdiv 24 128 (Ieee.b32 1 0) (Ieee.b32 3 0)) = Some (rnd32 (1 # 3))
  /\ Ieee.to_Q (SFadd 24 128 (Ieee.b32 16777216 0) (Ieee.b32 1 0))
     = Some (fadd32 16777216 1)
  /\ Ieee.to_Q (SFdiv 24 128 (Ieee.b32 1 (-140)) (Ieee.b32 3 0))
     = Some (rnd32 (pow2 (-140) / 3))
  /\ Ieee.to_Q (SFdiv 53 1024 (Ieee.b64 1 0) (Ieee.b64 10 0))
     = Some (rnd64 (1 # 10)).
Proof. vm_compute. repeat split. Qed.

(** The float32 weighted sums of the bytes 129 and 131 at the strengths
    [8388533 / 2^25] and [33554133 / 2^27]: 129.5 and 129.5 - 2^(-16) *)
Example ieee_weighted_sums :
  Ieee.to_Q (Ieee.weighted_sum 129 131 (Ieee.b64 8388533 (-25)))
  = Some (fadd32 (fadd32 (fmul32 129 (rnd32 (fsub64 1 (8388533 # 33554432))))
                         (fmul32 131 (rnd32 (8388533 # 33554432))))
                 (rnd32 0))
  /\ Ieee.to_Q (Ieee.weighted_sum 129 131 (Ieee.b64 8388533 (-25)))
     = Some (259 # 2)
  /\ Ieee.to_Q (Ieee.weighted_sum 129 131 (Ieee.b64 33554133 (-27)))
     = Some (fadd32 (fadd32
                       (fmul32 129 (rnd32 (fsub64 1 (33554133 # 134217728))))
                       (fmul32 131 (rnd32 (33554133 # 134217728))))
                    (rnd32 0))
  /\ Ieee.to_Q (Ieee.weighted_sum 129 131 (Ieee.b64 33554133 (-27)))
     = Some (8486911 # 65536).
Proof. vm_compute. repeat split. Qed.

(** The scale factor of a balanced image with channel sums 9 over 5
    cells: [1 - 2^(-24)] *)
Example ieee_balanced_scale :
  Ieee.to_Q (Ieee.balanced_scale 9 5) = Some (Spec.scale 0 Examples.gray_1x5)
  /\ Ieee.to_Q (Ieee.balanced_scale 9 5) = Some (16777215 # 16777216).
Proof. vm_compute. repeat split. Qed.

End IeeeAgreement.

(** ** Order and exactness of the rounding *)

Section RoundingOrder.

Lemma rne_comp (x y : Q) : x == y -> rne x = rne y.
Proof.
  intros H. unfold rne. rewrite (Qfloor_comp _ _ H).
  assert (E : x - inject_Z (Qfloor y) == y - inject_Z (Qfloor y))
    by (rewrite H; reflexivity).
  rewrite (Qcompare_comp _ _ E _ _ (Qeq_refl (1 # 2))). reflexivity.
Qed.

Lemma rne_Z (n : Z) : rne (inject_Z n) = n.
Proof.
  unfold rne. rewrite Qfloor_Z.
  assert (H : inject_Z n - inject_Z n == 0) by ring.
  rewrite H. reflexivity.
Qed.

Lemma rne_le (a b : Q) : a <= b -> (rne a <= rne b)%Z.
Proof.
  intros Hab.
  pose proof (Qfloor_resp_le _ _ Hab) as Hf.
  destruct (Z.eq_dec (Qfloor a) (Qfloor b)) as [E|E].
  - unfold rne. rewrite <- E.
    destruct (Qcompare_spec (a - inject_Z (Qfloor a)) (1 # 2)) as [Ha|Ha|Ha];
    destruct (Qcompare_spec (b - inject_Z (Qfloor a)) (1 # 2)) as [Hb|Hb|Hb];
    try lia; try (destruct (Z.even (Qfloor a)); lia); exfalso; lra.
  - pose proof (rne_floor a). pose proof (rne_floor b). lia.
Qed.

Lemma rne_upper (n : Z) (y : Q) : y <= inject_Z n -> (rne y <= n)%Z.
Proof. intros H. rewrite <- (rne_Z n). apply rne_le, H. Qed.

Lemma round_upper (prec emin k : Z) (x : Q) :
  ~ x == 0 -> (ulp_exp prec emin x <= k)%Z -> x <= pow2 k ->
  round prec emin x <= pow2 k.
Proof.
  intros Hne He Hx. rewrite round_nonzero by exact Hne.
  set (e := ulp_exp prec emin x) in *.
  assert (Hy : x * pow2 (- e) <= inject_Z (2 ^ (k - e))).
  { rewrite <- pow2_nonneg_Z by lia.
    assert (E : pow2 (k - e) == pow2 k * pow2 (- e)).
    { rewrite <- pow2_add. replace (k + - e)%Z with (k - e)%Z by lia.
      reflexivity. }
    rewrite E.
    apply Qmult_le_compat_r; [exact Hx|apply Qlt_le_weak, pow2_pos]. }
  apply rne_upper in Hy. rewrite Zle_Qle in Hy.
  rewrite <- pow2_nonneg_Z in Hy by lia.
  assert (E : pow2 k == pow2 (k - e) * pow2 e).
  { rewrite <- pow2_add. replace (k - e + e)%Z with k by lia. reflexivity. }
  rewrite E.
  apply Qmult_le_compat_r; [exact Hy|apply Qlt_le_weak, pow2_pos].
Qed.

Lemma round_le (prec emin : Z) (x y : Q) :
  (1 <= prec)%Z -> 0 <= x -> x <= y -> round prec emin x <= round prec emin y.
Proof.
  intros Hp Hx Hxy.
  destruct (Qeq_dec x 0) as [E|Hnx].
  { rewrite (round_zero _ _ x) by exact E. apply round_nonneg. lra. }
  assert (Hny : ~ y == 0) by lra.
  destruct (ilog2_spec x Hnx) as [Hxl Hxu].
  destruct (ilog2_spec y Hny) as [Hyl Hyu].
  rewrite Qabs_pos in Hxl, Hxu by exact Hx.
  rewrite Qabs_pos in Hyl, Hyu by lra.
  assert (Hi : (ilog2 x <= ilog2 y)%Z).
  { assert (H : pow2 (ilog2 x) < pow2 (ilog2 y + 1)) by lra.
    apply pow2_lt_inv in H. lia. }
  destruct (Z.eq_dec (ulp_exp prec emin x) (ulp_exp prec emin y)) as [Ee|Ee].
  - rewrite !round_nonzero by assumption. rewrite <- Ee.
    apply Qmult_le_compat_r; [|apply Qlt_le_weak, pow2_pos].
    rewrite <- Zle_Qle. apply rne_le.
    apply Qmult_le_compat_r; [exact Hxy|apply Qlt_le_weak, pow2_pos].
  - assert (Hlt : (ilog2 x < ilog2 y)%Z /\ (emin + prec - 1 <= ilog2 y)%Z
                  /\ (ulp_exp prec emin x <= ilog2 y)%Z).
    { unfold ulp_exp in *. lia. }
    destruct Hlt as (Hlt & Hn & Hu).
    apply Qle_trans with (pow2 (ilog2 y)).
    + apply round_upper; [exact Hnx|exact Hu|].
      apply Qle_trans with (pow2 (ilog2 x + 1)); [lra|].
      apply pow2_le. lia.
    + apply round_lower; [exact Hp|exact Hn|exact Hyl].
Qed.

Lemma round_Z (prec emin n : Z) :
  (emin <= 0)%Z -> (0 <= n < 2 ^ prec)%Z ->
  round prec emin (inject_Z n) = inject_Z n.
Proof.
  intros He Hn.
  destruct (Z.eq_dec n 0%Z) as [->|Hn0]; [reflexivity|].
  assert (Hne : ~ inject_Z n == 0).
  { intros E. unfold Qeq in E. simpl in E. lia. }
  assert (Hp : (0 <= prec)%Z).
  { destruct (Z.le_gt_cases 0 prec) as [H|H]; [exact H|].
    rewrite Z.pow_neg_r in Hn by lia. lia. }
  assert (Hq : round prec emin (inject_Z n) == inject_Z n).
  { rewrite round_nonzero by exact Hne.
    set (e := ulp_exp prec emin (inject_Z n)).
    assert (Hel : (e <= 0)%Z).
    { unfold e, ulp_exp.
      destruct (ilog2_spec _ Hne) as [Hl _].
      rewrite Qabs_pos in Hl
        by (change 0 with (inject_Z 0); rewrite <- Zle_Qle; lia).
      assert (Hlt : pow2 (ilog2 (inject_Z n)) < pow2 prec).
      { eapply Qle_lt_trans; [exact Hl|].
        rewrite pow2_nonneg_Z by lia. rewrite <- Zlt_Qlt. lia. }
      apply pow2_lt_inv in Hlt. lia. }
    assert (Hy : inject_Z n * pow2 (- e) == inject_Z (n * 2 ^ (- e))).
    { rewrite inject_Z_mult, <- pow2_nonneg_Z by lia. reflexivity. }
    assert (Hr : rne (inject_Z n * pow2 (- e)) = (n * 2 ^ (- e))%Z).
    { rewrite (rne_comp _ _ Hy). apply rne_Z. }
    rewrite Hr, inject_Z_mult, <- pow2_nonneg_Z by lia.
    rewrite <- Qmult_assoc, (Qmult_comm (pow2 (- e))), pow2_cancel. ring. }
  rewrite <- round_canonical. rewrite (Qred_complete _ _ Hq).
  apply Qred_identity. simpl. apply Z.gcd_1_r.
Qed.

Lemma ilog2_unique (x : Q) (k : Z) :
  pow2 k <= Qabs x -> Qabs x < pow2 (k + 1) -> ilog2 x = k.
Proof.
  intros Hl Hu.
  assert (Hne : ~ x == 0).
  { intros E. assert (E' : Qabs x == 0) by (rewrite E; reflexivity).
    pose proof (pow2_pos k). lra. }
  destruct (ilog2_spec x Hne) as [Hl' Hu'].
  assert (H1 : pow2 k < pow2 (ilog2 x + 1)) by lra.
  assert (H2 : pow2 (ilog2 x) < pow2 (k + 1)) by lra.
  apply pow2_lt_inv in H1, H2. lia.
Qed.

Lemma ilog2_comp (x y : Q) : ~ y == 0 -> x == y -> ilog2 x = ilog2 y.
Proof.
  intros Hne E. destruct (ilog2_spec y Hne) as [Hl Hu].
  apply ilog2_unique; rewrite E; assumption.
Qed.

(** Rounding does not depend on how the rational is written. *)
Lemma round_comp (prec emin : Z) (x y : Q) :
  x == y -> round prec emin x = round prec emin y.
Proof.
  intros E. unfold round.
  assert (Hb : Qeq_bool x 0 = Qeq_bool y 0).
  { destruct (Qeq_bool x 0) eqn:Hx, (Qeq_bool y 0) eqn:Hy; try reflexivity.
    - apply Qeq_bool_iff in Hx. rewrite E in Hx.
      apply Qeq_bool_iff in Hx. congruence.
    - apply Qeq_bool_iff in Hy. rewrite <- E in Hy.
      apply Qeq_bool_iff in Hy. congruence. }
  rewrite Hb.
  destruct (Qeq_bool y 0) eqn:Hy; [reflexivity|].
  assert (Hne : ~ y == 0).
  { intros H. apply Qeq_bool_iff in H. congruence. }
  unfold ulp_exp. rewrite (ilog2_comp _ _ Hne E).
  set (e := Z.max (ilog2 y - (prec - 1)) emin).
  apply Qred_complete.
  rewrite (rne_comp (x * pow2 (- e)) (y * pow2 (- e))); [reflexivity|].
  rewrite E. reflexivity.
Qed.

End RoundingOrder.

(** ** The returned sample at a position *)

Section ReturnedSample.

Lemma sample_fully_corrected (im : ndarray Z) (i k : nat) :
  sample (Spec.fully_corrected im) i k
  = Spec.corrected_sample im k <$> sample im i k.
Proof.
  unfold sample, Spec.fully_corrected. cbn [pixels].
  rewrite list_lookup_fmap.
  destruct (pixels im !! i) as [px|]; [|reflexivity]. cbn.
  apply list_lookup_imap.
Qed.

(** The sample a call returns at a position, from the sample [x] of the
    input there. *)
Lemma returned_sample (im : ndarray Z) (s : Q) (i k : nat) (x : Z) :
  sample im i k = Some x ->
  sample (value_of im (Spec.correct im s)) i k
  = Some (if Qeq_bool s 0 then x
          else if Spec.some_mean_zero im then x
          else if Qeq_bool s 1 then Spec.corrected_sample im k x
          else Cv2.weighted_sample (fsub64 1 s) s 0 x
                 (Spec.corrected_sample im k x)).
Proof.
  intros Hx. unfold Spec.correct.
  destruct (Qeq_bool s 0); [exact Hx|].
  destruct (Spec.some_mean_zero im); [exact Hx|].
  destruct (Qeq_bool s 1); cbn [value_of].
  - rewrite sample_fully_corrected, Hx. reflexivity.
  - pose proof (sample_fully_corrected im i k) as Hc. rewrite Hx in Hc.
    unfold sample, Spec.blended in *. cbn [pixels].
    rewrite lookup_zip_with.
    destruct (pixels im !! i) as [px|]; [|discriminate].
    destruct (pixels (Spec.fully_corrected im) !! i) as [qx|]; [|discriminate].
    cbn in *. rewrite lookup_zip_with, Hx, Hc. reflexivity.
Qed.

Lemma corrected_sample_uint8 (im : ndarray Z) (k : nat) (x : Z) :
  is_uint8 (Spec.corrected_sample im k x).
Proof. apply trunc_clip_range. Qed.

Lemma valid_sample_uint8 (im : ndarray Z) (i k : nat) (x : Z) :
  valid_image im -> sample im i k = Some x -> is_uint8 x.
Proof. intros [[_ Hu] _]. apply sample_uint8, Hu. Qed.

Lemma valid_sample_channel (im : ndarray Z) (i k : nat) (x : Z) :
  valid_image im -> sample im i k = Some x -> (k < 3)%nat.
Proof.
  intros Hv Hs. pose proof (valid_pixels_three im Hv) as H3.
  unfold sample in Hs.
  destruct (pixels im !! i) as [px|] eqn:Hi; [|discriminate]. simpl in Hs.
  rewrite Forall_lookup in H3. specialize (H3 i px Hi).
  apply lookup_lt_Some in Hs. lia.
Qed.

Lemma returned_sample_full (im : ndarray Z) (i k : nat) (x : Z) :
  sample im i k = Some x ->
  sample (value_of im (Spec.correct im 1)) i k
  = Some (if Spec.some_mean_zero im then x else Spec.corrected_sample im k x).
Proof.
  intros Hx. rewrite (returned_sample im 1 i k x Hx).
  change (Qeq_bool 1 0) with false. change (Qeq_bool 1 1) with true.
  cbv iota. reflexivity.
Qed.

Lemma returned_sample_blend (im : ndarray Z) (s : Q) (i k : nat) (x c y : Z) :
  valid_image im -> 0 <= s <= 1 ->
  sample im i k = Some x ->
  sample (value_of im (Spec.correct im 1)) i k = Some c ->
  sample (value_of im (Spec.correct im s)) i k = Some y ->
  (Z.min x c <= y <= Z.max x c)%Z
  /\ Qabs (inject_Z y - (inject_Z x * (1 - s) + inject_Z c * s))
     <= (1 # 2) + (1 # 1000).
Proof.
  intros Hv Hs Hx Hc Hy.
  pose proof (valid_sample_uint8 im i k x Hv Hx) as Hux.
  rewrite (returned_sample_full im i k x Hx) in Hc.
  rewrite (returned_sample im s i k x Hx) in Hy.
  injection Hc as Hc. injection Hy as Hy.
  assert (Hsame : forall t, t == 0 ->
            Qabs t <= (1 # 2) + (1 # 1000)).
  { intros t Ht. rewrite Ht. discriminate. }
  destruct (Qeq_bool s 0) eqn:H0.
  { apply Qeq_bool_iff in H0. subst y. split; [lia|].
    apply Hsame. rewrite H0. ring. }
  destruct (Spec.some_mean_zero im).
  { subst y c. split; [lia|]. apply Hsame. ring. }
  destruct (Qeq_bool s 1) eqn:H1.
  { apply Qeq_bool_iff in H1. subst y c. split; [lia|].
    apply Hsame. rewrite H1. ring. }
  subst y c.
  apply weighted_sample_spec; [exact Hs|exact Hux|apply corrected_sample_uint8].
Qed.

End ReturnedSample.

(** ** The correction and the blend preserve the order of the samples *)

Section Monotone.

Lemma rnd32_le (x y : Q) : 0 <= x -> x <= y -> rnd32 x <= rnd32 y.
Proof. apply round_le. lia. Qed.

Lemma rnd32_nonneg (x : Q) : 0 <= x -> 0 <= rnd32 x.
Proof. apply round_nonneg. Qed.


Lemma trunc_le (x y : Q) : 0 <= x -> x <= y -> (trunc x <= trunc y)%Z.
Proof.
  intros Hx Hxy. rewrite !trunc_nonneg by lra. apply Qfloor_resp_le, Hxy.
Qed.

Lemma clip_le (x y : Q) :
  x <= y -> Qmin (Qmax x 0) 255 <= Qmin (Qmax y 0) 255.
Proof.
  intros H. apply Q.min_le_compat_r, Q.max_le_compat_r, H.
Qed.

Lemma fold_fadd32_nonneg (l : list Q) (acc : Q) :
  Forall (fun x => 0 <= x) l -> 0 <= acc -> 0 <= fold_left fadd32 l acc.
Proof.
  intros Hl. revert acc. induction Hl as [|x l Hx _ IH]; intros acc Ha.
  - exact Ha.
  - simpl. apply IH. apply rnd32_nonneg. lra.
Qed.

Lemma channel_mean_nonneg (im : ndarray Z) (c : nat) :
  valid_image im -> (c < 3)%nat -> 0 <= Spec.channel_mean c im.
Proof.
  intros Hv Hc. unfold Spec.channel_mean.
  apply rnd32_nonneg, round_nonneg.
  apply Qmult_le_0_compat.
  - apply fold_fadd32_nonneg; [|lra].
    unfold Spec.channel. apply Forall_fmap, Forall_forall. intros px Hpx.
    simpl. apply inject_Z_uint8.
    exact (valid_channel_sample im c px Hv Hpx Hc).
  - apply Qinv_le_0_compat. change 0 with (inject_Z 0).
    rewrite <- Zle_Qle. lia.
Qed.

Lemma avg_gray_nonneg (im : ndarray Z) :
  valid_image im -> 0 <= Spec.avg_gray im.
Proof.
  intros Hv. unfold Spec.avg_gray.
  pose proof (channel_mean_nonneg im 0 Hv ltac:(lia)).
  pose proof (channel_mean_nonneg im 1 Hv ltac:(lia)).
  pose proof (channel_mean_nonneg im 2 Hv ltac:(lia)).
  apply rnd32_nonneg. apply Qmult_le_0_compat; [|discriminate].
  apply rnd32_nonneg.
  assert (0 <= fadd32 (Spec.channel_mean 0 im) (Spec.channel_mean 1 im))
    by (apply rnd32_nonneg; lra).
  lra.
Qed.

Lemma scale_nonneg (im : ndarray Z) (c : nat) :
  valid_image im -> (c < 3)%nat -> 0 <= Spec.scale c im.
Proof.
  intros Hv Hc. unfold Spec.scale. apply rnd32_nonneg.
  apply Qmult_le_0_compat; [apply avg_gray_nonneg, Hv|].
  apply Qinv_le_0_compat, channel_mean_nonneg; assumption.
Qed.

Lemma scaled_nonneg (sc : Q) (x : Z) :
  0 <= sc -> is_uint8 x -> 0 <= inject_Z x * sc.
Proof.
  intros Hs Hx. apply Qmult_le_0_compat; [apply inject_Z_uint8, Hx|exact Hs].
Qed.

Lemma scaled_le (sc : Q) (x x' : Z) :
  0 <= sc -> (x <= x')%Z -> inject_Z x * sc <= inject_Z x' * sc.
Proof.
  intros Hs Hx. apply Qmult_le_compat_r; [|exact Hs].
  rewrite <- Zle_Qle. exact Hx.
Qed.

(** The corrected sample grows with the input sample. *)
Lemma corrected_sample_le (im : ndarray Z) (c : nat) (x x' : Z) :
  valid_image im -> (c < 3)%nat -> is_uint8 x -> (x <= x')%Z ->
  (Spec.corrected_sample im c x <= Spec.corrected_sample im c x')%Z.
Proof.
  intros Hv Hc Hx Hxx. unfold Spec.corrected_sample.
  pose proof (scale_nonneg im c Hv Hc) as Hs.
  apply trunc_le; [apply clip_range|]. apply clip_le.
  unfold fmul32. apply rnd32_le; [apply scaled_nonneg; assumption|].
  apply scaled_le; assumption.
Qed.

(** A blended sample grows with both of its arguments when the two
    weights are not negative. *)
Lemma weighted_sample_le (alpha beta : Q) (x x' y y' : Z) :
  0 <= rnd32 alpha -> 0 <= rnd32 beta ->
  is_uint8 x -> is_uint8 y -> (x <= x')%Z -> (y <= y')%Z ->
  (Cv2.weighted_sample alpha beta 0 x y
   <= Cv2.weighted_sample alpha beta 0 x' y')%Z.
Proof.
  intros Ha Hb Hx Hy Hxx Hyy.
  unfold Cv2.weighted_sample, Cv2.saturate_cast_uchar.
  apply Z.max_le_compat_l, Z.min_le_compat_l, rne_le.
  pose proof (scaled_nonneg _ x Ha Hx) as H1.
  pose proof (scaled_nonneg _ y Hb Hy) as H2.
  pose proof (scaled_le _ x x' Ha Hxx) as H3.
  pose proof (scaled_le _ y y' Hb Hyy) as H4.
  pose proof (rnd32_nonneg _ H1) as H5.
  pose proof (rnd32_nonneg _ H2) as H6.
  pose proof (rnd32_le _ _ H1 H3) as H7.
  pose proof (rnd32_le _ _ H2 H4) as H8.
  unfold fadd32, fmul32.
  assert (H9 : 0 <= rnd32 (inject_Z x * rnd32 alpha)
                    + rnd32 (inject_Z y * rnd32 beta)) by lra.
  pose proof (rnd32_nonneg _ H9) as H10.
  assert (H11 : rnd32 0 = 0) by reflexivity. rewrite H11.
  apply rnd32_le; [lra|].
  apply Qplus_le_l. apply rnd32_le; [exact H9|lra].
Qed.

Lemma blend_weights_nonneg (s : Q) :
  0 <= s <= 1 -> 0 <= rnd32 (fsub64 1 s) /\ 0 <= rnd32 s.
Proof.
  intros Hs. split.
  - apply rnd32_nonneg. unfold fsub64. apply round_nonneg. lra.
  - apply rnd32_nonneg. lra.
Qed.

End Monotone.

(** ** The direction in which a channel moves *)

Section Direction.

Lemma fmul32_zero (sc : Q) : fmul32 (inject_Z 0) sc = 0.
Proof. unfold fmul32. apply round_zero. unfold inject_Z. ring. Qed.

Lemma corrected_sample_zero (im : ndarray Z) (c : nat) :
  Spec.corrected_sample im c 0 = 0%Z.
Proof. unfold Spec.corrected_sample. rewrite fmul32_zero. reflexivity. Qed.

Lemma weighted_sample_zero (alpha beta : Q) :
  Cv2.weighted_sample alpha beta 0 0 0 = 0%Z.
Proof.
  unfold Cv2.weighted_sample. rewrite !fmul32_zero. reflexivity.
Qed.





End Direction.

(** ** Channel means of the fully corrected image *)

Section GrayMean.

Lemma fold_fadd32_exact (l : list Z) (acc : Z) :
  Forall is_uint8 l -> (0 <= acc)%Z ->
  (acc + 255 * Z.of_nat (length l) < 2 ^ 24)%Z ->
  fold_left fadd32 (inject_Z <$> l) (inject_Z acc)
  = inject_Z (acc + foldr Z.add 0%Z l).
Proof.
  intros Hl. revert acc. induction Hl as [|x l Hx _ IH]; intros acc Ha Hb.
  - simpl. rewrite Z.add_0_r. reflexivity.
  - rewrite fmap_cons. cbn [fold_left foldr length] in *.
    unfold is_uint8 in Hx.
    assert (E : fadd32 (inject_Z acc) (inject_Z x) = inject_Z (acc + x)).
    { unfold fadd32, rnd32.
      rewrite (round_comp _ _ _ (inject_Z (acc + x)))
        by (rewrite inject_Z_plus; reflexivity).
      apply round_Z; lia. }
    rewrite E, IH by lia. f_equal. lia.
Qed.

Lemma channel_samples_uint8 (im : ndarray Z) (c : nat) :
  valid_image im -> (c < 3)%nat -> Forall is_uint8 (channel_samples c im).
Proof.
  intros Hv Hc. unfold channel_samples. apply Forall_fmap, Forall_forall.
  intros px Hpx. exact (valid_channel_sample im c px Hv Hpx Hc).
Qed.

Lemma channel_samples_length (im : ndarray Z) (c : nat) :
  length (channel_samples c im) = length (pixels im).
Proof. unfold channel_samples. apply length_fmap. Qed.

(** The float32 sum of a channel of at most 65793 samples is exact. *)
Lemma sum32_channel_exact (im : ndarray Z) (c : nat) :
  valid_image im -> (c < 3)%nat ->
  (Z.of_nat (length (pixels im)) <= 65793)%Z ->
  Np.sum32 (Spec.channel c im) = inject_Z (channel_total c im).
Proof.
  intros Hv Hc Hn.
  assert (E : Spec.channel c im = inject_Z <$> channel_samples c im).
  { unfold Spec.channel, channel_samples.
    rewrite <- list_fmap_compose. reflexivity. }
  rewrite E. unfold Np.sum32, channel_total.
  change 0 with (inject_Z 0).
  rewrite (fold_fadd32_exact (channel_samples c im) 0).
  - reflexivity.
  - apply channel_samples_uint8; assumption.
  - lia.
  - rewrite channel_samples_length. lia.
Qed.

Lemma total_bounds (l : list Z) :
  Forall is_uint8 l ->
  (0 <= foldr Z.add 0 l <= 255 * Z.of_nat (length l))%Z.
Proof.
  induction 1 as [|x l Hx _ IH]; cbn [foldr length]; [lia|].
  unfold is_uint8 in Hx. lia.
Qed.

Lemma rnd32_lower (k : Z) (x : Q) :
  (-126 <= k)%Z -> pow2 k <= x -> pow2 k <= rnd32 x.
Proof. intros Hk. apply round_lower; lia. Qed.

Lemma rnd32_upper_Z (n : Z) (x : Q) :
  (0 <= n < 2 ^ 24)%Z -> 0 <= x -> x <= inject_Z n -> rnd32 x <= inject_Z n.
Proof.
  intros Hn H0 Hx. rewrite <- (round_Z 24 (-149) n) by lia.
  apply rnd32_le; assumption.
Qed.

(** binary64 rounding of a normal positive number, as a relative error *)
Lemma rnd64_relative (k : Z) (x : Q) :
  (-1022 <= k)%Z -> pow2 k <= x ->
  (1 - (1 # 9007199254740992)) * x <= rnd64 x
  <= (1 + (1 # 9007199254740992)) * x.
Proof.
  intros Hk Hx. pose proof (pow2_pos k) as Hp.
  assert (Habs : Qabs x == x) by (apply Qabs_pos; lra).
  pose proof (round_error 53 (-1074) x) as He.
  rewrite Habs in He.
  assert (Hn : pow2 (-1074 + 53 - 1) <= x).
  { eapply Qle_trans; [apply pow2_le|exact Hx]. lia. }
  specialize (He Hn).
  change (pow2 (- (53))) with (1 # 9007199254740992) in He.
  apply Qabs_Qle_condition in He. fold (rnd64 x) in He.
  lra.
Qed.

(** A mean [m] of at least [2^-17] rounded to double and then to single
    precision *)
Lemma mean_relative (m : Q) :
  pow2 (-17) <= m ->
  pow2 (-17) <= rnd32 (rnd64 m)
  /\ (1 - (1 # 8388608)) * m <= rnd32 (rnd64 m) <= (1 + (1 # 8388608)) * m.
Proof.
  intros Hm.
  assert (Hd : pow2 (-17) <= rnd64 m)
    by (apply round_lower; [lia|lia|exact Hm]).
  split; [apply rnd32_lower; [lia|exact Hd]|].
  pose proof (rnd64_relative (-17) m ltac:(lia) Hm) as H64.
  assert (H126 : pow2 (-126) <= rnd64 m).
  { eapply Qle_trans; [apply pow2_le|exact Hd]. lia. }
  pose proof (rnd32_relative _ H126) as H32.
  change (pow2 (-17)) with (1 # 131072) in Hm, Hd.
  lra.
Qed.

Section SmallImage.

Variable im : ndarray Z.
Hypothesis Hv : valid_image im.
Hypothesis Hn : (Z.of_nat (length (pixels im)) <= 65793)%Z.

Lemma cells_pos : 1 <= cell_count im.
Proof.
  pose proof (valid_pixels_nonempty im Hv) as Hne. unfold cell_count.
  change 1 with (inject_Z 1). rewrite <- Zle_Qle.
  destruct (pixels im); [congruence|]. cbn [length]. lia.
Qed.

Lemma channel_mean_exact (c : nat) :
  (c < 3)%nat ->
  Spec.channel_mean c im
  = rnd32 (rnd64 (inject_Z (channel_total c im) / cell_count im)).
Proof.
  intros Hc. unfold Spec.channel_mean.
  rewrite sum32_channel_exact by assumption. reflexivity.
Qed.

Lemma channel_total_bounds (c : nat) :
  (c < 3)%nat ->
  0 <= inject_Z (channel_total c im) <= 255 * cell_count im.
Proof.
  intros Hc.
  pose proof (total_bounds _ (channel_samples_uint8 im c Hv Hc)) as [H0 H1].
  rewrite channel_samples_length in H1. fold (channel_total c im) in H0, H1.
  split.
  - change 0 with (inject_Z 0). rewrite <- Zle_Qle. exact H0.
  - unfold cell_count. change 255 with (inject_Z 255).
    rewrite <- inject_Z_mult, <- Zle_Qle. exact H1.
Qed.

Lemma exact_mean_bounds (c : nat) :
  (c < 3)%nat ->
  0 <= inject_Z (channel_total c im) / cell_count im <= 255.
Proof.
  intros Hc. pose proof cells_pos as Hp.
  destruct (channel_total_bounds c Hc) as [H0 H1]. split.
  - apply Qle_shift_div_l; lra.
  - apply Qle_shift_div_r; lra.
Qed.

Lemma channel_mean_le_255 (c : nat) :
  (c < 3)%nat -> Spec.channel_mean c im <= 255.
Proof.
  intros Hc. rewrite channel_mean_exact by exact Hc.
  destruct (exact_mean_bounds c Hc) as [H0 H1].
  change 255 with (inject_Z 255).
  apply rnd32_upper_Z; [lia|apply round_nonneg; exact H0|].
  rewrite <- (round_Z 53 (-1074) 255) by lia.
  apply round_le; [lia|exact H0|exact H1].
Qed.

Lemma exact_mean_lower (c : nat) :
  (c < 3)%nat -> is_zero (Spec.channel_mean c im) = false ->
  pow2 (-17) <= inject_Z (channel_total c im) / cell_count im.
Proof.
  intros Hc Hz. pose proof cells_pos as Hp.
  destruct (channel_total_bounds c Hc) as [H0 _].
  assert (H1 : (1 <= channel_total c im)%Z).
  { destruct (Z.eq_dec (channel_total c im) 0%Z) as [E|E].
    - rewrite channel_mean_exact, E in Hz by exact Hc.
      rewrite (round_zero 53 (-1074)) in Hz; [discriminate|].
      unfold inject_Z, Qdiv. ring.
    - change 0 with (inject_Z 0) in H0. rewrite <- Zle_Qle in H0. lia. }
  rewrite Zle_Qle in H1. change (inject_Z 1) with 1 in H1.
  change (pow2 (-17)) with (1 # 131072).
  apply Qle_shift_div_l; [lra|].
  assert (Hn' : cell_count im <= 65793).
  { unfold cell_count. change 65793 with (inject_Z 65793). rewrite <- Zle_Qle.
    exact Hn. }
  lra.
Qed.

Lemma avg_gray_bounds (c : nat) :
  (c < 3)%nat -> is_zero (Spec.channel_mean c im) = false ->
  pow2 (-19) <= Spec.avg_gray im <= 255.
Proof.
  intros Hc Hz.
  pose proof (exact_mean_lower c Hc Hz) as Hm.
  apply mean_relative in Hm as [Hlo _].
  rewrite <- channel_mean_exact in Hlo by exact Hc.
  pose proof (channel_mean_nonneg im 0 Hv ltac:(lia)) as P0.
  pose proof (channel_mean_nonneg im 1 Hv ltac:(lia)) as P1.
  pose proof (channel_mean_nonneg im 2 Hv ltac:(lia)) as P2.
  pose proof (channel_mean_le_255 0 ltac:(lia)) as U0.
  pose proof (channel_mean_le_255 1 ltac:(lia)) as U1.
  pose proof (channel_mean_le_255 2 ltac:(lia)) as U2.
  unfold Spec.avg_gray.
  set (a0 := Spec.channel_mean 0 im) in *.
  set (a1 := Spec.channel_mean 1 im) in *.
  set (a2 := Spec.channel_mean 2 im) in *.
  assert (Hs1 : 0 <= fadd32 a0 a1 <= 510).
  { split; [apply rnd32_nonneg; lra|].
    change 510 with (inject_Z 510). apply rnd32_upper_Z; [lia|lra|].
    change (inject_Z 510) with 510. lra. }
  assert (Ht : 0 <= fadd32 (fadd32 a0 a1) a2 <= 765).
  { split; [apply rnd32_nonneg; lra|].
    change 765 with (inject_Z 765). apply rnd32_upper_Z; [lia|lra|].
    change (inject_Z 765) with 765. lra. }
  assert (Hsum : pow2 (-17) <= fadd32 (fadd32 a0 a1) a2).
  { pose proof (pow2_pos (-17)) as Hp.
    destruct c as [|[|[|c]]]; [| | |lia].
    - fold a0 in Hlo. apply rnd32_lower; [lia|].
      assert (pow2 (-17) <= fadd32 a0 a1) by (apply rnd32_lower; [lia|lra]).
      lra.
    - fold a1 in Hlo. apply rnd32_lower; [lia|].
      assert (pow2 (-17) <= fadd32 a0 a1) by (apply rnd32_lower; [lia|lra]).
      lra.
    - fold a2 in Hlo. apply rnd32_lower; [lia|]. lra. }
  set (t := fadd32 (fadd32 a0 a1) a2) in *.
  split.
  - apply rnd32_lower; [lia|].
    change (pow2 (-17)) with (1 # 131072) in Hsum.
    change (pow2 (-19)) with (1 # 524288).
    apply Qle_shift_div_l; lra.
  - change 255 with (inject_Z 255). apply rnd32_upper_Z; [lia| |].
    + apply Qle_shift_div_l; lra.
    + change (inject_Z 255) with 255. apply Qle_shift_div_r; lra.
Qed.

Lemma pow2_m126_255 : pow2 (-126) * 255 <= pow2 (-19).
Proof. vm_compute. discriminate. Qed.

(** The exact mean of a channel times its scale factor is the gray mean,
    up to the rounding of the mean and of the factor. *)
Lemma scale_times_mean (c : nat) :
  (c < 3)%nat -> is_zero (Spec.channel_mean c im) = false ->
  Spec.avg_gray im - (1 # 20000)
  <= Spec.scale c im * (inject_Z (channel_total c im) / cell_count im)
  <= Spec.avg_gray im + (1 # 20000).
Proof.
  intros Hc Hz.
  pose proof (exact_mean_lower c Hc Hz) as Hm.
  destruct (mean_relative _ Hm) as [Halo Ha].
  rewrite <- channel_mean_exact in Halo, Ha by exact Hc.
  pose proof (channel_mean_le_255 c Hc) as Hau.
  destruct (avg_gray_bounds c Hc Hz) as [Hgl Hgu].
  unfold Spec.scale.
  set (m := inject_Z (channel_total c im) / cell_count im) in *.
  set (a := Spec.channel_mean c im) in *.
  set (g := Spec.avg_gray im) in *.
  pose proof (pow2_pos (-126)) as Hp.
  pose proof pow2_m126_255 as Hp255.
  assert (Hpa : pow2 (-126) * a <= pow2 (-126) * 255)
    by (apply Qmult_le_l; assumption).
  change (pow2 (-17)) with (1 # 131072) in Hm, Halo.
  assert (Hq : pow2 (-126) <= g / a) by (apply Qle_shift_div_l; lra).
  pose proof (rnd32_relative _ Hq) as Hsc.
  set (q := g / a) in *.
  assert (Hga : a * q == g) by (apply Qmult_div_r; lra).
  assert (Hq0 : 0 <= q) by lra.
  assert (Hm0 : 0 <= m) by lra.
  destruct Ha as [Ha1 Ha2]. destruct Hsc as [Hs1 Hs2].
  pose proof (Qmult_le_compat_r _ _ q Ha1 Hq0) as H1.
  pose proof (Qmult_le_compat_r _ _ q Ha2 Hq0) as H2.
  pose proof (Qmult_le_compat_r _ _ m Hs1 Hm0) as H3.
  pose proof (Qmult_le_compat_r _ _ m Hs2 Hm0) as H4.
  rewrite Hga in H1, H2.
  change (pow2 (-19)) with (1 # 524288) in Hgl.
  split; lra.
Qed.

End SmallImage.

(** A corrected sample below 255 was not clipped: it is the product of
    the sample and the scale factor, rounded to float32 and truncated. *)
Lemma corrected_sample_unsaturated (im : ndarray Z) (c : nat) (x : Z) :
  is_uint8 x -> 0 <= Spec.scale c im ->
  (Spec.corrected_sample im c x < 255)%Z ->
  inject_Z x * Spec.scale c im - 1 - (1 # 65536)
  <= inject_Z (Spec.corrected_sample im c x)
  <= inject_Z x * Spec.scale c im + (1 # 65536).
Proof.
  intros Hx Hs Hc. unfold Spec.corrected_sample in *.
  set (sc := Spec.scale c im) in *.
  pose proof (scaled_nonneg sc x Hs Hx) as Hp.
  pose proof (rnd32_nonneg _ Hp) as Hv0. fold (fmul32 (inject_Z x) sc) in Hv0.
  set (v := fmul32 (inject_Z x) sc) in *.
  rewrite trunc_nonneg in * by apply clip_range.
  assert (Hv : v < 255).
  { destruct (Qlt_le_dec v 255) as [H|H]; [exact H|].
    assert (E : Qmin (Qmax v 0) 255 == 255).
    { apply Q.min_r. eapply Qle_trans; [exact H|apply Q.le_max_l]. }
    rewrite (Qfloor_comp _ _ E) in Hc. vm_compute in Hc. discriminate. }
  assert (E : Qmin (Qmax v 0) 255 == v).
  { rewrite Q.max_l by exact Hv0. apply Q.min_l. lra. }
  rewrite (Qfloor_comp _ _ E).
  assert (Hle : inject_Z x * sc <= 256).
  { destruct (Qlt_le_dec 256 (inject_Z x * sc)) as [H|H]; [|exact H].
    assert (H256 : rnd32 256 <= v).
    { unfold v, fmul32. apply rnd32_le; lra. }
    change (rnd32 256) with 256 in H256. lra. }
  assert (He : Qabs (v - inject_Z x * sc) <= 1 # 65536).
  { unfold v, fmul32. apply rnd32_error_256. rewrite Qabs_pos; assumption. }
  apply Qabs_Qle_condition in He.
  pose proof (Qfloor_le v) as Hf1. pose proof (Qlt_floor v) as Hf2.
  rewrite inject_Z_plus in Hf2. change (inject_Z 1) with 1 in Hf2.
  lra.
Qed.

Lemma total_scaled_bounds (f : Z -> Z) (sc : Q) (l : list Z) :
  Forall (fun x => inject_Z x * sc - 1 - (1 # 65536) <= inject_Z (f x)
                   <= inject_Z x * sc + (1 # 65536)) l ->
  inject_Z (foldr Z.add 0%Z l) * sc
  - inject_Z (Z.of_nat (length l)) * (1 + (1 # 65536))
  <= inject_Z (foldr Z.add 0%Z (f <$> l))
  <= inject_Z (foldr Z.add 0%Z l) * sc
     + inject_Z (Z.of_nat (length l)) * (1 # 65536).
Proof.
  induction 1 as [|x l Hx _ IH].
  - cbn. change (inject_Z (Z.of_nat 0)) with 0. change (inject_Z 0) with 0.
    lra.
  - rewrite fmap_cons. cbn [foldr length].
    rewrite Nat2Z.inj_succ, <- Z.add_1_r, !inject_Z_plus.
    change (inject_Z 1) with 1. lra.
Qed.

Lemma channel_samples_fully_corrected (im : ndarray Z) (c : nat) :
  valid_image im -> (c < 3)%nat ->
  channel_samples c (Spec.fully_corrected im)
  = Spec.corrected_sample im c <$> channel_samples c im.
Proof.
  intros Hv Hc. unfold channel_samples, Spec.fully_corrected. cbn [pixels].
  rewrite <- !list_fmap_compose. apply Forall_fmap_ext.
  eapply Forall_impl; [apply (valid_pixels_three im Hv)|].
  intros px Hpx. cbn.
  destruct px as [|b [|g [|r [|? ?]]]]; try discriminate.
  destruct c as [|[|[|c]]]; [reflexivity..|lia].
Qed.

Lemma some_mean_zero_false (im : ndarray Z) (c : nat) :
  (c < 3)%nat -> Spec.some_mean_zero im = false ->
  is_zero (Spec.channel_mean c im) = false.
Proof.
  intros Hc Hz. unfold Spec.some_mean_zero in Hz.
  apply orb_false_elim in Hz as [Hz H2].
  apply orb_false_elim in Hz as [H0 H1].
  destruct c as [|[|[|c]]]; [assumption..|lia].
Qed.

Lemma full_correction_result (im full : ndarray Z) :
  valid_image im -> correct_color_cast im 1 = Ok (New full) ->
  Spec.some_mean_zero im = false /\ full = Spec.fully_corrected im.
Proof.
  intros Hv H. rewrite correct_color_cast_spec in H by exact Hv.
  unfold Spec.correct in H. change (Qeq_bool 1 0) with false in H.
  change (Qeq_bool 1 1) with true in H. cbv iota in H.
  destruct (Spec.some_mean_zero im); [discriminate|].
  split; congruence.
Qed.

Lemma Qmult_div_cancel (a b c : Q) : ~ c == 0 -> a * (b / c) * c == b * a.
Proof. intros H. field. exact H. Qed.

End GrayMean.

(** ** The size of the displayed picture *)

Section DisplaySize.

Lemma rnd64_le (x y : Q) : 0 <= x -> x <= y -> rnd64 x <= rnd64 y.
Proof. apply round_le. lia. Qed.

Lemma rnd64_int (n : Z) :
  (0 <= n < 2 ^ 53)%Z -> rnd64 (inject_Z n) = inject_Z n.
Proof. intros H. apply round_Z; [lia|exact H]. Qed.

(** The smaller of two floats *)
Lemma Qmin_float_l (prec emin : Z) (x y : Q) :
  round prec emin x <= round prec emin y ->
  Qmin (round prec emin x) (round prec emin y) = round prec emin x.
Proof.
  intros H. unfold Qmin, GenericMinMax.gmin.
  destruct (Qcompare_spec (round prec emin x) (round prec emin y))
    as [E|E|E]; [reflexivity|reflexivity|lra].
Qed.

Lemma Qmin_float_r (prec emin : Z) (x y : Q) :
  round prec emin y <= round prec emin x ->
  Qmin (round prec emin x) (round prec emin y) = round prec emin y.
Proof.
  intros H. unfold Qmin, GenericMinMax.gmin.
  destruct (Qcompare_spec (round prec emin x) (round prec emin y))
    as [E|E|E]; [|lra|reflexivity].
  rewrite <- (round_canonical prec emin x), <- (round_canonical prec emin y).
  apply Qred_complete, E.
Qed.

Lemma div_mod_Q (a m : Z) :
  (0 < m)%Z ->
  inject_Z a / inject_Z m
  == inject_Z (a / m) + inject_Z (a mod m) / inject_Z m.
Proof.
  intros Hm.
  assert (Hm' : ~ inject_Z m == 0).
  { intros E. unfold Qeq in E. simpl in E. lia. }
  rewrite (Z.div_mod a m) at 1 by lia.
  rewrite inject_Z_plus, inject_Z_mult. field. exact Hm'.
Qed.

Lemma floor_bounds (v : Q) (q : Z) :
  inject_Z q - 1 < v -> v < inject_Z q + 1 -> (q - 1 <= Qfloor v <= q)%Z.
Proof.
  intros Hl Hu.
  pose proof (Qfloor_le v) as H1. pose proof (Qlt_floor v) as H2.
  rewrite inject_Z_plus in H2. change (inject_Z 1) with 1 in H2.
  assert (Ha : inject_Z q < inject_Z (Qfloor v + 2)).
  { rewrite inject_Z_plus. change (inject_Z 2) with 2. lra. }
  assert (Hb : inject_Z (Qfloor v) < inject_Z (q + 1)).
  { rewrite inject_Z_plus. change (inject_Z 1) with 1. lra. }
  rewrite <- Zlt_Qlt in Ha, Hb. lia.
Qed.

Lemma floor_lower (v : Q) (q : Z) : inject_Z q <= v -> (q <= Qfloor v)%Z.
Proof.
  intros H. rewrite <- (Qfloor_Z q). apply Qfloor_resp_le, H.
Qed.

Lemma Qmult_div_swap (d m : Q) : ~ m == 0 -> d * (500 / m) == 500 * d / m.
Proof. intros H. field. exact H. Qed.

(** [int(d * scale)] for the scale [500 / m] of an image whose longer
    side is [m]: the floor of [500 * d / m], or one less when the quotient
    is an integer. *)
Lemma scaled_side (d m : Z) :
  (1 <= d <= m)%Z -> (m < 2 ^ 31)%Z ->
  let n := trunc (App.mul_int_float d (rnd64 (inject_Z 500 / inject_Z m))) in
  (500 * d / m - 1 <= n <= 500 * d / m)%Z
  /\ ((500 * d) mod m <> 0%Z -> n = (500 * d / m)%Z).
Proof.
  intros Hd Hm n. unfold n, App.mul_int_float. clear n.
  rewrite rnd64_int by lia.
  assert (HD : 1 <= inject_Z d).
  { change 1 with (inject_Z 1). rewrite <- Zle_Qle. lia. }
  assert (HDM : inject_Z d <= inject_Z m) by (rewrite <- Zle_Qle; lia).
  assert (HM : inject_Z m <= 2147483648).
  { change 2147483648 with (inject_Z 2147483648). rewrite <- Zle_Qle. lia. }
  pose proof (div_mod_Q (500 * d) m ltac:(lia)) as Hdiv.
  pose proof (Z.mod_pos_bound (500 * d) m ltac:(lia)) as Hr.
  set (q := (500 * d / m)%Z) in *. set (r := ((500 * d) mod m)%Z) in *.
  assert (Hr0 : 0 <= inject_Z r).
  { change 0 with (inject_Z 0). rewrite <- Zle_Qle. lia. }
  assert (Hr1 : inject_Z r <= inject_Z m - 1).
  { assert (H : inject_Z (r + 1) <= inject_Z m) by (rewrite <- Zle_Qle; lia).
    rewrite inject_Z_plus in H. change (inject_Z 1) with 1 in H. lra. }
  rewrite inject_Z_mult in Hdiv. change (inject_Z 500) with 500 in *.
  rewrite <- Qmult_div_swap in Hdiv by lra.
  set (D := inject_Z d) in *. set (M := inject_Z m) in *.
  set (t := 500 / M) in *.
  assert (HtM : M * t == 500) by (apply Qmult_div_r; lra).
  assert (Ht : (1 # 8388608) <= t) by (apply Qle_shift_div_l; lra).
  pose proof (rnd64_relative (-23) t ltac:(lia) Ht) as Hs.
  set (s := rnd64 t) in *. destruct Hs as [Hs1 Hs2].
  assert (HD0 : 0 <= D) by lra.
  pose proof (Qmult_le_compat_r _ _ D Hs1 HD0) as Hp1.
  pose proof (Qmult_le_compat_r _ _ D Hs2 HD0) as Hp2.
  assert (Ht0 : 0 <= t) by lra.
  pose proof (Qmult_le_compat_r _ _ t HD Ht0) as HX1.
  pose proof (Qmult_le_compat_r _ _ t HDM Ht0) as HX2.
  assert (Hp : (1 # 16777216) <= D * s) by lra.
  pose proof (rnd64_relative (-24) (D * s) ltac:(lia) Hp) as [Hv1 Hv2].
  set (v := rnd64 (D * s)) in *.
  set (rho := inject_Z r / M) in *.
  assert (Hrho0 : 0 <= rho) by (apply Qle_shift_div_l; lra).
  assert (Hrho1 : rho <= 1 - (1 # 2147483648))
    by (apply Qle_shift_div_r; lra).
  assert (Hv0 : 0 <= v) by lra.
  rewrite trunc_nonneg by exact Hv0.
  split.
  - apply floor_bounds; lra.
  - intros Hne.
    assert (Hr2 : 1 <= inject_Z r).
    { change 1 with (inject_Z 1). rewrite <- Zle_Qle. lia. }
    assert (Hrho2 : (1 # 2147483648) <= rho) by (apply Qle_shift_div_l; lra).
    pose proof (floor_bounds v q) as [_ Hu]; [lra|lra|].
    assert (Hq : inject_Z q <= v) by lra.
    apply floor_lower in Hq. lia.
Qed.

Lemma panel_ratio_le (a b : Z) :
  (1 <= a <= b)%Z ->
  0 <= inject_Z 500 / inject_Z b
  /\ inject_Z 500 / inject_Z b <= inject_Z 500 / inject_Z a.
Proof.
  intros H.
  assert (Ha : 1 <= inject_Z a).
  { change 1 with (inject_Z 1). rewrite <- Zle_Qle. lia. }
  assert (Hab : inject_Z a <= inject_Z b) by (rewrite <- Zle_Qle; lia).
  change (inject_Z 500) with 500.
  assert (H0 : 0 <= 500 / inject_Z b) by (apply Qle_shift_div_l; lra).
  split; [exact H0|].
  apply Qle_shift_div_l; [lra|].
  pose proof (Qmult_le_compat_r _ _ _ Hab H0) as Hm.
  rewrite (Qmult_comm (inject_Z b)), Qmult_comm in Hm.
  rewrite (Qmult_comm (500 / inject_Z b) (inject_Z b)) in Hm.
  rewrite Qmult_div_r in Hm by lra. exact Hm.
Qed.

(** [min(panel_w/w, panel_h/h)] is the ratio for the longer side. *)
Lemma display_scale (w h : Z) :
  (1 <= w)%Z -> (1 <= h)%Z ->
  Qmin (rnd64 (inject_Z 500 / inject_Z w)) (rnd64 (inject_Z 500 / inject_Z h))
  = rnd64 (inject_Z 500 / inject_Z (Z.max w h)).
Proof.
  intros Hw Hh. destruct (Z.le_ge_cases w h) as [H|H].
  - rewrite Z.max_r by exact H.
    destruct (panel_ratio_le w h ltac:(lia)) as [H0 H1].
    apply Qmin_float_r, rnd64_le; assumption.
  - rewrite Z.max_l by lia.
    destruct (panel_ratio_le h w ltac:(lia)) as [H0 H1].
    apply Qmin_float_l, rnd64_le; assumption.
Qed.

Lemma display_image_sides (im : ndarray Z) :
  let w := Z.of_nat (width im) in
  let h := Z.of_nat (height im) in
  let scale := rnd64 (inject_Z 500 / inject_Z (Z.max w h)) in
  (1 <= w)%Z -> (1 <= h)%Z ->
  App.display_image im
  = App.resize im (trunc (App.mul_int_float w scale),
                   trunc (App.mul_int_float h scale)).
Proof.
  intros w h scale Hw Hh. unfold App.display_image, App.truediv.
  fold w h.
  destruct (Z.eqb_spec w 0) as [E|_]; [lia|].
  destruct (Z.eqb_spec h 0) as [E|_]; [lia|].
  unfold mbind, App.outcome_bind.
  rewrite display_scale by assumption. reflexivity.
Qed.


Lemma resize_inv (im : ndarray Z) (dsize size : Z * Z) :
  App.resize im dsize = App.Returns size ->
  size = dsize /\ (1 <= fst dsize)%Z /\ (1 <= snd dsize)%Z.
Proof.
  unfold App.resize.
  destruct (Nat.eqb (height im) 0), (Nat.eqb (width im) 0); try discriminate.
  cbn [orb].
  destruct (Z.leb_spec (fst dsize) 0); [discriminate|].
  destruct (Z.leb_spec (snd dsize) 0); [discriminate|].
  cbn [orb]. intros [= <-]. split; [reflexivity|lia].
Qed.

Lemma display_image_done_pos (im : ndarray Z) (size : Z * Z) :
  App.display_image im = App.Returns size ->
  (1 <= Z.of_nat (width im))%Z /\ (1 <= Z.of_nat (height im))%Z.
Proof.
  unfold App.display_image, App.truediv.
  destruct (Z.eqb_spec (Z.of_nat (width im)) 0) as [E|E]; [discriminate|].
  destruct (Z.eqb_spec (Z.of_nat (height im)) 0) as [E'|E']; [discriminate|].
  intros _. lia.
Qed.

End DisplaySize.

(** ** The methods of the application *)

Section Application.

(** [slider / 100.0] is the rounded quotient, between 0 and 1. *)
Lemma strength_val_bounds (k : Z) :
  (0 <= k <= 100)%Z ->
  App.strength_val k = rnd64 (inject_Z k / 100)
  /\ 0 <= inject_Z k / 100 <= 1
  /\ 0 <= App.strength_val k <= 1.
Proof.
  intros Hk. unfold App.strength_val. rewrite rnd64_int by lia.
  assert (H0 : 0 <= inject_Z k).
  { change 0 with (inject_Z 0). rewrite <- Zle_Qle. lia. }
  assert (H1 : inject_Z k <= 100).
  { change 100 with (inject_Z 100). rewrite <- Zle_Qle. lia. }
  assert (Hq0 : 0 <= inject_Z k / 100) by (apply Qle_shift_div_l; lra).
  assert (Hq1 : inject_Z k / 100 <= 1) by (apply Qle_shift_div_r; lra).
  split; [reflexivity|]. split; [split; assumption|].
  split; [apply round_nonneg, Hq0|].
  change 1 with (rnd64 1). apply rnd64_le; assumption.
Qed.

(** The picture size depends on the height and the width only. *)
Lemma display_image_shape (a b : ndarray Z) :
  height a = height b -> width a = width b ->
  App.display_image a = App.display_image b.
Proof.
  intros Hh Hw. unfold App.display_image, App.resize. rewrite Hh, Hw.
  reflexivity.
Qed.

Lemma alloc_spec (h : gmap Heap.loc (ndarray Z)) (v : ndarray Z) :
  let l := fst (Heap.alloc h v) in
  let h' := snd (Heap.alloc h v) in
  h !! l = None /\ h' !! l = Some v
  /\ forall x w, h !! x = Some w -> h' !! x = Some w.
Proof.
  unfold Heap.alloc. cbn [fst snd].
  assert (Hf : h !! fresh (dom h) = None).
  { apply not_elem_of_dom, is_fresh. }
  split; [exact Hf|]. split; [apply lookup_insert_eq|].
  intros x w Hx. rewrite lookup_insert_ne; [exact Hx|]. congruence.
Qed.

(** A call on a valid image object: it returns a reference to the
    result and leaves the objects of the heap as they were. *)
Lemma call_valid (h : gmap Heap.loc (ndarray Z)) (image : Heap.loc)
    (a : ndarray Z) (s : Q) :
  h !! image = Some a -> valid_image a ->
  exists l h',
    Heap.call_correct_color_cast h image s = Some (Ok l, h')
    /\ h' !! l = Some (value_of a (Spec.correct a s))
    /\ (forall x w, h !! x = Some w -> h' !! x = Some w)
    /\ (Spec.correct a s = Input -> l = image /\ h' = h).
Proof.
  intros Ha Hv. unfold Heap.call_correct_color_cast.
  rewrite Ha. cbn [mbind option_bind].
  rewrite correct_color_cast_spec by exact Hv.
  destruct (Spec.correct a s) as [|v].
  - exists image, h. repeat split; auto.
  - destruct (alloc_spec h v) as (H1 & H2 & H3).
    exists (fst (Heap.alloc h v)), (snd (Heap.alloc h v)).
    repeat split; auto; discriminate.
Qed.

Lemma apply_correction_valid (st : App.app) (image : Heap.loc)
    (a : ndarray Z) :
  App.original_cv_image st = Some image ->
  App.heap st !! image = Some a -> valid_image a ->
  let r := Spec.correct a (App.strength_val (App.strength_slider st)) in
  exists l h,
    h !! l = Some (value_of a r)
    /\ (forall x w, App.heap st !! x = Some w -> h !! x = Some w)
    /\ (r = Input -> l = image /\ h = App.heap st)
    /\ App.apply_correction st
       = Some (match App.display_image a with
               | App.Raises e =>
                   (App.mk_app h (Some image) (Some l)
                      (App.original_panel st) (App.corrected_panel st)
                      (App.strength_slider st)
                      (App.strength_slider_state st) (App.btn_save st),
                    App.Raises e)
               | App.Returns size =>
                   (App.mk_app h (Some image) (Some l)
                      (App.original_panel st) (Some size)
                      (App.strength_slider st)
                      (App.strength_slider_state st) (App.btn_save st),
                    App.Returns tt)
               end).
Proof.
  intros Ho Ha Hv r.
  destruct (call_valid (App.heap st) image a
              (App.strength_val (App.strength_slider st)) Ha Hv)
    as (l & h & Hcall & Hl & Hmono & Hin).
  fold r in Hl, Hin.
  destruct (spec_correct_valid a
              (App.strength_val (App.strength_slider st)) Hv)
    as (_ & Hh & Hw & _).
  fold r in Hh, Hw.
  exists l, h. split; [exact Hl|]. split; [exact Hmono|].
  split; [exact Hin|].
  unfold App.apply_correction. rewrite Ho, Hcall. cbn [mbind option_bind].
  rewrite Hl. cbn [mbind option_bind].
  rewrite (display_image_shape (value_of a r) a Hh Hw). reflexivity.
Qed.





Lemma refers_to_image_mono (st st' : App.app) (ref : option Heap.loc) :
  (forall x w, App.heap st !! x = Some w -> App.heap st' !! x = Some w) ->
  App.refers_to_image st ref -> App.refers_to_image st' ref.
Proof.
  intros Hm Hr l Hl. destruct (Hr l Hl) as (a & Ha & Hv).
  exists a. split; [apply Hm, Ha|exact Hv].
Qed.

Lemma apply_correction_consistent (st : App.app) :
  App.refers_to_image st (App.original_cv_image st) ->
  App.refers_to_image st (App.corrected_cv_image st) ->
  App.strength_slider_state st = App.btn_save st ->
  App.btn_save st = App.Normal ->
  (App.original_cv_image st = None -> App.corrected_cv_image st <> None) ->
  (0 <= App.strength_slider st <= 100)%Z ->
  exists st' r,
    App.apply_correction st = Some (st', r) /\ App.consistent st'.
Proof.
  intros Ho Hc Hs Hb Hn Hk.
  destruct (App.original_cv_image st) as [image|] eqn:Eo.
  - destruct (Ho image eq_refl) as (a & Ha & Hv).
    destruct (apply_correction_valid st image a Eo Ha Hv)
      as (l & h & Hl & Hm & _ & Happly).
    destruct (spec_correct_valid a
                (App.strength_val (App.strength_slider st)) Hv)
      as (Hvo & _).
    assert (Hcons : forall panel,
              App.consistent
                (App.mk_app h (Some image) (Some l) (App.original_panel st)
                   panel (App.strength_slider st)
                   (App.strength_slider_state st) (App.btn_save st))).
    { intros panel. unfold App.consistent, App.refers_to_image.
      cbn [App.heap App.original_cv_image App.corrected_cv_image
           App.strength_slider_state App.btn_save App.strength_slider].
      split; [intros x [= <-]; exists a; split; [apply Hm, Ha|exact Hv]|].
      split; [intros x [= <-]; eexists; split; [exact Hl|exact Hvo]|].
      split; [exact Hs|]. split; [|exact Hk].
      split; [discriminate|intros _; exact Hb]. }
    rewrite Happly. destruct (App.display_image a); eexists _, _;
      (split; [reflexivity|apply Hcons]).
  - exists st, (App.Returns tt). split.
    + unfold App.apply_correction. rewrite Eo. reflexivity.
    + unfold App.consistent. rewrite Eo.
      split; [intros l [=]|]. split; [exact Hc|]. split; [exact Hs|].
      split; [|exact Hk]. split; [intros _; apply Hn; reflexivity|].
      intros _. exact Hb.
Qed.

Lemma load_image_consistent (path : string) (file : option (ndarray Z))
    (st : App.app) :
  App.consistent st -> App.readable (App.LoadImage path file) ->
  exists st' e,
    App.load_image path file st = Some (st', e) /\ App.consistent st'.
Proof.
  intros Hc Hf. pose proof Hc as (Ho & Hcr & Hs & Hb & Hk).
  unfold App.load_image.
  destruct path as [|ch path]; [exists st, None; auto|].
  destruct file as [a|].
  - cbn [App.readable] in Hf.
    destruct (alloc_spec (App.heap st) a) as (_ & Hnew & Hm).
    rewrite (surjective_pairing (Heap.alloc (App.heap st) a)).
    set (image := fst (Heap.alloc (App.heap st) a)) in *.
    set (h := snd (Heap.alloc (App.heap st) a)) in *.
    assert (Hcr' : forall l, App.corrected_cv_image st = Some l ->
              exists v, h !! l = Some v /\ valid_image v).
    { intros l Hl. destruct (Hcr l Hl) as (v & Hv1 & Hv2).
      exists v. split; [apply Hm, Hv1|exact Hv2]. }
    destruct (App.display_image a) as [size|err].
    + destruct (apply_correction_consistent
                  (App.mk_app h (Some image) (App.corrected_cv_image st)
                     (Some size) (App.corrected_panel st)
                     (App.strength_slider st) App.Normal App.Normal))
        as (st' & r & Ha & Hc'); cbn [App.heap App.original_cv_image
          App.corrected_cv_image App.strength_slider_state App.btn_save
          App.strength_slider]; try reflexivity; try assumption.
      * intros l [= <-]. exists a. split; assumption.
      * discriminate.
      * rewrite Ha. cbn [mbind option_bind]. eexists _, _.
        split; [reflexivity|exact Hc'].
    + eexists _, _. split; [reflexivity|].
      unfold App.consistent, App.refers_to_image.
      cbn [App.heap App.original_cv_image App.corrected_cv_image
           App.strength_slider_state App.btn_save App.strength_slider].
      split; [intros l [= <-]; exists a; split; assumption|].
      split; [exact Hcr'|]. auto.
  - eexists _, _. split; [reflexivity|].
    unfold App.consistent, App.refers_to_image.
    cbn [App.heap App.original_cv_image App.corrected_cv_image
         App.strength_slider_state App.btn_save App.strength_slider].
    split; [intros l [=]|]. auto.
Qed.

Lemma step_consistent (st : App.app) (ev : App.event) :
  App.consistent st -> App.readable ev ->
  exists st', App.step st ev = Some st' /\ App.consistent st'.
Proof.
  intros Hc Hr. destruct ev as [path file|value|path]; cbn [App.step].
  - destruct (load_image_consistent path file st Hc Hr)
      as (st' & e & Hl & Hc').
    exists st'. rewrite Hl. auto.
  - pose proof Hc as (Ho & Hcr & Hs & Hb & Hk).
    destruct (App.strength_slider_state st) eqn:Es; [exists st; auto|].
    destruct (apply_correction_consistent
                (App.mk_app (App.heap st) (App.original_cv_image st)
                   (App.corrected_cv_image st) (App.original_panel st)
                   (App.corrected_panel st) (Z.max 0 (Z.min 100 value))
                   App.Normal (App.btn_save st)))
      as (st' & r & Ha & Hc'); cbn [App.heap App.original_cv_image
        App.corrected_cv_image App.strength_slider_state App.btn_save
        App.strength_slider]; try assumption; try lia.
    + congruence.
    + intros _. apply Hb. congruence.
    + exists st'. rewrite Ha. auto.
  - exists st. auto.
Qed.

Lemma run_consistent (st : App.app) (evs : list App.event) :
  App.consistent st -> Forall App.readable evs ->
  exists st', App.run st evs = Some st' /\ App.consistent st'.
Proof.
  intros Hc Hr. revert st Hc.
  induction Hr as [|ev evs Hev _ IH]; intros st Hc; cbn [App.run].
  - exists st. auto.
  - destruct (step_consistent st ev Hc Hev) as (s & Hs & Hcs).
    rewrite Hs. cbn [mbind option_bind]. apply IH, Hcs.
Qed.

Lemma init_consistent (slider : Z) :
  (0 <= slider <= 100)%Z -> App.consistent (App.init slider).
Proof.
  intros Hk. unfold App.consistent, App.refers_to_image, App.init.
  cbn [App.heap App.original_cv_image App.corrected_cv_image
       App.strength_slider_state App.btn_save App.strength_slider].
  split; [intros l [=]|]. split; [intros l [=]|]. split; [reflexivity|].
  split; [|exact Hk]. split; [discriminate|congruence].
Qed.

End Application.

(** * Main theorems *)



(** C2. Identity at strength 0: for every array [im], valid or not,
    [correct_color_cast im 0] returns the input object itself, so the
    returned image is byte-for-byte the input. *)
Theorem identity_at_strength_zero (im : ndarray Z) :
  correct_color_cast im 0 = Ok Input
  /\ forall r, correct_color_cast im 0 = Ok r -> value_of im r = im.
Proof.
  assert (H : correct_color_cast im 0 = Ok Input) by reflexivity.
  split; [exact H|].
  intros r Hr. rewrite H in Hr. injection Hr as <-. reflexivity.
Qed.

(** C3. Degenerate channel: when one of the three channel means the
    function computes on a valid image is exactly 0.0, which is the case
    when a channel is entirely black, then for every strength greater than
    0 the call returns the input image unchanged and raises nothing. *)
Theorem zero_mean_returns_input (im : ndarray Z) (s : Q) :
  valid_image im -> 0 < s ->
  ((exists c m, (c < 3)%nat /\ channel_avg im c = Ok m /\ is_zero m = true)
   \/ exists c, (c < 3)%nat
                /\ Forall (fun px => nth c px 0%Z = 0%Z) (pixels im)) ->
  correct_color_cast im s = Ok Input
  /\ value_of im Input = im.
Proof.
  intros Hv Hs Hz. split; [|reflexivity].
  rewrite correct_color_cast_spec by exact Hv.
  assert (Hz' : exists c, (c < 3)%nat
                          /\ is_zero (Spec.channel_mean c im) = true).
  { destruct Hz as [(c & m & Hc & Hm & Hzm) | (c & Hc & Hb)]; exists c.
    - rewrite channel_avg_valid in Hm by assumption.
      injection Hm as <-. auto.
    - apply black_channel_mean in Hb. rewrite Hb. auto. }
  destruct Hz' as (c & Hc & Hzc).
  assert (Hsz : Spec.some_mean_zero im = true).
  { unfold Spec.some_mean_zero.
    destruct c as [|[|[|c]]]; try lia; rewrite Hzc;
      rewrite ?orb_true_r; reflexivity. }
  unfold Spec.correct. rewrite Hsz.
  destruct (Qeq_bool s 0); reflexivity.
Qed.

Lemma zero_mean_returns_input_witness :
  correct_color_cast Examples.black_channel_1x2 (9 # 10) = Ok Input
  /\ value_of Examples.black_channel_1x2 Input = Examples.black_channel_1x2.
Proof.
  apply zero_mean_returns_input.
  - valid_concrete.
  - reflexivity.
  - left. exists 1%nat, 0. split; [lia|]. split; reflexivity.
Defined.






(** C6 does not hold as stated.  In the 2x2 example the first sample is
    129 and its fully corrected value is 131.  The strengths
    [s1 = 8388533 / 2^25] and [s2 = 33554133 / 2^27], [s1 < s2], have the
    same float32 weight for the corrected image, while the float32 weight
    [1 - s] of the original is one unit in the last place lower at [s2]:
    the blended sample is 130 at [s1] and 129 at [s2], so its distance to
    the original falls from 1 to 0. *)
Lemma blend_distance_steps_back :
  let s1 := 8388533 # 33554432 in
  let s2 := 33554133 # 134217728 in
  0 < s1 /\ s1 < s2 /\ s2 < 1
  /\ sample Examples.shifted_2x2 0 0 = Some 129%Z
  /\ (exists full, correct_color_cast Examples.shifted_2x2 1 = Ok (New full)
        /\ sample full 0 0 = Some 131%Z)
  /\ rnd32 s1 = rnd32 s2
  /\ rnd32 (fsub64 1 s2) < rnd32 (fsub64 1 s1)
  /\ (exists out1, correct_color_cast Examples.shifted_2x2 s1 = Ok (New out1)
        /\ sample out1 0 0 = Some 130%Z)
  /\ (exists out2, correct_color_cast Examples.shifted_2x2 s2 = Ok (New out2)
        /\ sample out2 0 0 = Some 129%Z).
Proof.
  intros s1 s2.
  repeat (split; [reflexivity|]).
  split; [eexists; split; [vm_compute; reflexivity | reflexivity]|].
  split; [vm_compute; reflexivity|].
  split; [vm_compute; reflexivity|].
  split; eexists; (split; [vm_compute; reflexivity | reflexivity]).
Qed.

(** C6 as amended.  For every valid image and strengths
    [0 <= s1 <= s2 <= 1], at every position the distance between the
    returned sample and the original sample is non-decreasing up to one
    unit: it is at most one more at [s1] than at [s2]; and no more at
    [s1] than at [s2] when [s1] is 0 or [s2] is 1. *)
Theorem blend_distance_monotone_up_to_one (im : ndarray Z) (s1 s2 : Q) :
  valid_image im -> 0 <= s1 -> s1 <= s2 -> s2 <= 1 ->
  exists r1 r2,
    correct_color_cast im s1 = Ok r1 /\ correct_color_cast im s2 = Ok r2
    /\ forall i k x y1 y2,
         sample im i k = Some x ->
         sample (value_of im r1) i k = Some y1 ->
         sample (value_of im r2) i k = Some y2 ->
         (Z.abs (y1 - x) <= Z.abs (y2 - x) + 1)%Z
         /\ (s1 == 0 \/ s2 == 1 -> (Z.abs (y1 - x) <= Z.abs (y2 - x))%Z).
Proof.
  intros Hv H0 H12 H1.
  exists (Spec.correct im s1), (Spec.correct im s2).
  split; [apply correct_color_cast_spec; exact Hv|].
  split; [apply correct_color_cast_spec; exact Hv|].
  intros i k x y1 y2 Hx Hy1 Hy2.
  assert (Hux : is_uint8 x) by (eapply sample_uint8; [apply Hv | exact Hx]).
  assert (Hfull : forall c, sample (Spec.fully_corrected im) i k = Some c ->
                            is_uint8 c).
  { intros c Hc. eapply sample_uint8; [|exact Hc].
    apply (fully_corrected_valid im Hv). }
  unfold Spec.correct in Hy1, Hy2.
  destruct (Qeq_bool s1 0) eqn:E10.
  { simpl in Hy1. assert (y1 = x) by congruence. subst y1.
    rewrite Z.sub_diag. simpl. lia. }
  destruct (Spec.some_mean_zero im).
  { destruct (Qeq_bool s2 0); simpl in Hy1, Hy2;
      assert (y1 = x) by congruence; assert (y2 = x) by congruence;
      subst; lia. }
  assert (Hs1 : 0 < s1).
  { apply Qle_lteq in H0 as [H0|H0]; [exact H0|].
    symmetry in H0. apply Qeq_bool_iff in H0. congruence. }
  destruct (Qeq_bool s2 0) eqn:E20.
  { apply Qeq_bool_iff in E20. lra. }
  destruct (Qeq_bool s1 1) eqn:E11.
  { apply Qeq_bool_iff in E11.
    assert (E21 : Qeq_bool s2 1 = true) by (apply Qeq_bool_iff; lra).
    rewrite E21 in Hy2. simpl in Hy1, Hy2.
    assert (y1 = y2) by congruence. subst. lia. }
  assert (Hs1' : s1 < 1).
  { destruct (Qlt_le_dec s1 1) as [H|H]; [exact H|].
    assert (E : s1 == 1) by lra. apply Qeq_bool_iff in E. congruence. }
  simpl in Hy1. apply sample_blended in Hy1 as (x1 & c1 & Hx1 & Hc1 & ->).
  assert (x1 = x) by congruence. subst x1.
  pose proof (Hfull c1 Hc1) as Huc.
  destruct (weighted_sample_spec s1 x c1 ltac:(lra) Hux Huc) as [Hr1 _].
  destruct (Qeq_bool s2 1) eqn:E21.
  - simpl in Hy2. assert (y2 = c1) by congruence. subst y2. lia.
  - simpl in Hy2. apply sample_blended in Hy2 as (x2 & c2 & Hx2 & Hc2 & ->).
    assert (x2 = x) by congruence. assert (c2 = c1) by congruence. subst.
    pose proof (weighted_sample_monotone s1 s2 x c1 H0 H12 H1 Hux Huc) as Hm.
    split; [exact Hm|].
    intros [E|E]; apply Qeq_bool_iff in E; congruence.
Qed.

Lemma blend_distance_monotone_up_to_one_witness :
  exists r1 r2,
    correct_color_cast Examples.shifted_2x2 (8388533 # 33554432) = Ok r1
    /\ correct_color_cast Examples.shifted_2x2 (33554133 # 134217728) = Ok r2
    /\ forall i k x y1 y2,
         sample Examples.shifted_2x2 i k = Some x ->
         sample (value_of Examples.shifted_2x2 r1) i k = Some y1 ->
         sample (value_of Examples.shifted_2x2 r2) i k = Some y2 ->
         (Z.abs (y1 - x) <= Z.abs (y2 - x) + 1)%Z
         /\ ((8388533 # 33554432) == 0 \/ (33554133 # 134217728) == 1 ->
             (Z.abs (y1 - x) <= Z.abs (y2 - x))%Z).
Proof.
  apply (blend_distance_monotone_up_to_one Examples.shifted_2x2).
  - valid_concrete.
  - discriminate.
  - discriminate.
  - discriminate.
Defined.

(** The truncation does bite on balanced images.  The three channel means
    of the gray 1x5 example are the float32 nearest to 1.8; the float32
    value of [(avg + avg + avg) / 3] is one ulp below it, the scale factors
    are [1 - 2^(-24)], and every sample comes out one lower. *)
Lemma balanced_image_may_lose_one :
  Spec.channel_mean 0 Examples.gray_1x5 = 7549747 # 4194304
  /\ Spec.avg_gray Examples.gray_1x5 = 15099493 # 8388608
  /\ Spec.scale 0 Examples.gray_1x5 = 16777215 # 16777216
  /\ correct_color_cast Examples.gray_1x5 1
     = Ok (New (mk_ndarray 1 5 3
                  [[0; 0; 0]; [1; 1; 1]; [1; 1; 1]; [1; 1; 1]; [1; 1; 1]]%Z)).
Proof. vm_compute. repeat split. Qed.



(** C8. No exception: for every valid three-channel image and every
    strength the call raises nothing, neither at the unpacking nor at a
    division (a division by a zero mean would be a fault: it is never
    reached, the zero-mean check returns the input first), and what it
    returns is a valid image or the input itself. *)
Theorem no_exception (im : ndarray Z) (s : Q) :
  valid_image im ->
  (forall e, correct_color_cast im s <> Raise e)
  /\ (exists r, correct_color_cast im s = Ok r
        /\ valid_image (value_of im r)
        /\ (Qeq_bool s 0 = false -> Spec.some_mean_zero im = true ->
            r = Input)).
Proof.
  intros Hv. rewrite correct_color_cast_spec by exact Hv.
  split; [discriminate|].
  exists (Spec.correct im s). split; [reflexivity|].
  split; [apply spec_correct_valid; exact Hv|].
  intros Hs Hz. unfold Spec.correct. rewrite Hs, Hz. reflexivity.
Qed.

Lemma no_exception_witness :
  (forall e, correct_color_cast Examples.black_channel_1x2 (1 # 2) <> Raise e)
  /\ (exists r, correct_color_cast Examples.black_channel_1x2 (1 # 2) = Ok r
        /\ valid_image (value_of Examples.black_channel_1x2 r)
        /\ (Qeq_bool (1 # 2) 0 = false ->
            Spec.some_mean_zero Examples.black_channel_1x2 = true ->
            r = Input)).
Proof.
  apply (no_exception Examples.black_channel_1x2 (1 # 2)).
  valid_concrete.
Defined.

(** C9 does not hold as stated.  On the strength-0 path and on the
    zero-mean path the call allocates nothing: the returned reference is
    the input reference, so a later write to the input object is seen
    through the returned one. *)
Lemma short_circuit_returns_alias :
  let h : gmap Heap.loc (ndarray Z) :=
    {[ 1%positive := Examples.black_channel_1x2 ]} in
  Heap.call_correct_color_cast h 1%positive 0 = Some (Ok 1%positive, h)
  /\ Heap.call_correct_color_cast h 1%positive (1 # 2)
     = Some (Ok 1%positive, h)
  /\ h !! 1%positive = Some Examples.black_channel_1x2
  /\ Heap.write h 1%positive Examples.cast_2x2 !! 1%positive
     = Some Examples.cast_2x2
  /\ Examples.cast_2x2 <> Examples.black_channel_1x2.
Proof.
  intros h. unfold Heap.call_correct_color_cast, Heap.write, h.
  rewrite lookup_singleton_eq, lookup_insert_eq.
  repeat split; try reflexivity. discriminate.
Qed.

(** C9 as amended.  A call never changes an object of the heap, the input
    included.  What it returns is either the input reference itself, with
    the heap unchanged (for a valid image: exactly on the strength-0 and
    zero-mean paths), or a reference to a newly allocated object, and then
    a later write to the input does not change the returned image, nor a
    write to the returned image the input. *)
Theorem call_preserves_heap_and_allocates (h : gmap Heap.loc (ndarray Z))
    (image : Heap.loc) (a : ndarray Z) (s : Q) :
  h !! image = Some a ->
  exists res h',
    Heap.call_correct_color_cast h image s = Some (res, h')
    /\ (forall l v, h !! l = Some v -> h' !! l = Some v)
    /\ (forall r, res = Ok r ->
          (r = image /\ h' = h /\ correct_color_cast a s = Ok Input)
          \/ (h !! r = None /\ r <> image
              /\ exists v, correct_color_cast a s = Ok (New v)
                   /\ h' !! r = Some v
                   /\ forall w, Heap.write h' image w !! r = Some v
                                /\ Heap.write h' r w !! image = Some a))
    /\ (valid_image a ->
          (res = Ok image <->
           Qeq_bool s 0 = true \/ Spec.some_mean_zero a = true)).
Proof.
  intros Ha. unfold Heap.call_correct_color_cast. rewrite Ha. simpl.
  pose proof (is_fresh (dom h)) as Hfresh.
  apply not_elem_of_dom in Hfresh.
  assert (Hne : fresh (dom h) <> image) by congruence.
  destruct (correct_color_cast a s) as [[|v]|e] eqn:Hc.
  - exists (Ok image), h. split; [reflexivity|]. split; [auto|]. split.
    + intros r [= <-]. left. auto.
    + intros Hv. rewrite correct_color_cast_spec in Hc by exact Hv.
      split; [intros _|reflexivity].
      injection Hc as Hc. unfold Spec.correct in Hc.
      destruct (Qeq_bool s 0); [left; reflexivity|].
      destruct (Spec.some_mean_zero a); [right; reflexivity|].
      destruct (Qeq_bool s 1); discriminate.
  - exists (Ok (fresh (dom h))), (<[fresh (dom h) := v]> h).
    split; [reflexivity|]. split; [|split].
    + intros l w Hl. rewrite lookup_insert_ne; [exact Hl | congruence].
    + intros r [= <-]. right. split; [exact Hfresh|]. split; [exact Hne|].
      exists v. split; [reflexivity|]. split; [apply lookup_insert_eq|].
      intros w. unfold Heap.write. split.
      * rewrite lookup_insert_ne by congruence. apply lookup_insert_eq.
      * rewrite !lookup_insert_ne by congruence. exact Ha.
    + intros Hv. rewrite correct_color_cast_spec in Hc by exact Hv.
      injection Hc as Hc. unfold Spec.correct in Hc.
      split.
      * intros [= E]. congruence.
      * intros [E|E]; rewrite E in Hc; [discriminate|].
        destruct (Qeq_bool s 0); discriminate.
  - exists (Raise e), h. split; [reflexivity|]. split; [auto|]. split.
    + intros r [=].
    + intros Hv. rewrite correct_color_cast_spec in Hc by exact Hv.
      discriminate.
Qed.

Lemma call_preserves_heap_and_allocates_witness :
  let h : gmap Heap.loc (ndarray Z) :=
    {[ 1%positive := Examples.cast_2x2 ]} in
  exists res h',
    Heap.call_correct_color_cast h 1%positive (1 # 2) = Some (res, h')
    /\ (forall l v, h !! l = Some v -> h' !! l = Some v)
    /\ (forall r, res = Ok r ->
          (r = 1%positive /\ h' = h
           /\ correct_color_cast Examples.cast_2x2 (1 # 2) = Ok Input)
          \/ (h !! r = None /\ r <> 1%positive
              /\ exists v,
                   correct_color_cast Examples.cast_2x2 (1 # 2) = Ok (New v)
                   /\ h' !! r = Some v
                   /\ forall w,
                        Heap.write h' 1%positive w !! r = Some v
                        /\ Heap.write h' r w !! 1%positive
                           = Some Examples.cast_2x2))
    /\ (valid_image Examples.cast_2x2 ->
          (res = Ok 1%positive <->
           Qeq_bool (1 # 2) 0 = true
           \/ Spec.some_mean_zero Examples.cast_2x2 = true)).
Proof.
  intros h.
  apply (call_preserves_heap_and_allocates h 1%positive
           Examples.cast_2x2 (1 # 2)).
  apply lookup_singleton_eq.
Defined.



(** * Further properties: the function *)

(** X1. The blend never overshoots: for every valid image and every
    strength in [0, 1], each returned sample lies between the original
    sample at its position and the sample the full correction (strength
    1.0) puts there, both bounds included. *)
Theorem blend_between_original_and_corrected (im : ndarray Z) (s : Q) :
  valid_image im -> 0 <= s <= 1 ->
  exists r full,
    correct_color_cast im s = Ok r /\ correct_color_cast im 1 = Ok full
    /\ forall i k x c y,
         sample im i k = Some x ->
         sample (value_of im full) i k = Some c ->
         sample (value_of im r) i k = Some y ->
         (Z.min x c <= y <= Z.max x c)%Z.
Proof.
  intros Hv Hs. exists (Spec.correct im s), (Spec.correct im 1).
  rewrite !correct_color_cast_spec by exact Hv.
  split; [reflexivity|]. split; [reflexivity|].
  intros i k x c y Hx Hc Hy.
  exact (proj1 (returned_sample_blend im s i k x c y Hv Hs Hx Hc Hy)).
Qed.

Lemma blend_between_original_and_corrected_witness :
  exists r full,
    correct_color_cast Examples.cast_2x2 (1 # 2) = Ok r
    /\ correct_color_cast Examples.cast_2x2 1 = Ok full
    /\ forall i k x c y,
         sample Examples.cast_2x2 i k = Some x ->
         sample (value_of Examples.cast_2x2 full) i k = Some c ->
         sample (value_of Examples.cast_2x2 r) i k = Some y ->
         (Z.min x c <= y <= Z.max x c)%Z.
Proof.
  apply (blend_between_original_and_corrected Examples.cast_2x2 (1 # 2)).
  - valid_concrete.
  - split; discriminate.
Defined.

(** X2. The blend is the exact mix rounded to the nearest integer: for
    every valid image and every strength [s] in [0, 1], a returned sample
    [y] differs from [(1 - s) * x + s * c], where [x] is the original
    sample and [c] the fully corrected one, by at most 0.501 (one half
    for the rounding to an integer, the rest for the float32 evaluation of
    the weighted sum). *)
Theorem blend_rounds_exact_mix (im : ndarray Z) (s : Q) :
  valid_image im -> 0 <= s <= 1 ->
  exists r full,
    correct_color_cast im s = Ok r /\ correct_color_cast im 1 = Ok full
    /\ forall i k x c y,
         sample im i k = Some x ->
         sample (value_of im full) i k = Some c ->
         sample (value_of im r) i k = Some y ->
         Qabs (inject_Z y - (inject_Z x * (1 - s) + inject_Z c * s))
         <= (1 # 2) + (1 # 1000).
Proof.
  intros Hv Hs. exists (Spec.correct im s), (Spec.correct im 1).
  rewrite !correct_color_cast_spec by exact Hv.
  split; [reflexivity|]. split; [reflexivity|].
  intros i k x c y Hx Hc Hy.
  exact (proj2 (returned_sample_blend im s i k x c y Hv Hs Hx Hc Hy)).
Qed.

Lemma blend_rounds_exact_mix_witness :
  exists r full,
    correct_color_cast Examples.cast_2x2 (1 # 4) = Ok r
    /\ correct_color_cast Examples.cast_2x2 1 = Ok full
    /\ forall i k x c y,
         sample Examples.cast_2x2 i k = Some x ->
         sample (value_of Examples.cast_2x2 full) i k = Some c ->
         sample (value_of Examples.cast_2x2 r) i k = Some y ->
         Qabs (inject_Z y - (inject_Z x * (1 - (1 # 4)) + inject_Z c * (1 # 4)))
         <= (1 # 2) + (1 # 1000).
Proof.
  apply (blend_rounds_exact_mix Examples.cast_2x2 (1 # 4)).
  - valid_concrete.
  - split; discriminate.
Defined.

(** X3. Black stays black: a sample that is 0 in a valid image is 0 in
    the returned image, whatever the strength (inside or outside
    [0, 1]). *)
Theorem black_sample_stays_black (im : ndarray Z) (s : Q) :
  valid_image im ->
  exists r,
    correct_color_cast im s = Ok r
    /\ forall i k, sample im i k = Some 0%Z ->
         sample (value_of im r) i k = Some 0%Z.
Proof.
  intros Hv. exists (Spec.correct im s).
  rewrite correct_color_cast_spec by exact Hv.
  split; [reflexivity|]. intros i k Hx.
  rewrite (returned_sample im s i k 0 Hx).
  rewrite corrected_sample_zero, weighted_sample_zero.
  destruct (Qeq_bool s 0), (Spec.some_mean_zero im), (Qeq_bool s 1);
    reflexivity.
Qed.

Lemma black_sample_stays_black_witness :
  exists r,
    correct_color_cast Examples.shifted_2x2 (1 # 2) = Ok r
    /\ forall i k, sample Examples.shifted_2x2 i k = Some 0%Z ->
         sample (value_of Examples.shifted_2x2 r) i k = Some 0%Z.
Proof.
  apply (black_sample_stays_black Examples.shifted_2x2 (1 # 2)).
  valid_concrete.
Defined.

(** X4. The order of the samples of a channel is preserved: for every
    valid image and every strength in [0, 1], if the sample of channel [k]
    at one position is at most the sample of channel [k] at another
    position, the same holds for the returned samples at these
    positions. *)
Theorem order_within_channel_preserved (im : ndarray Z) (s : Q) :
  valid_image im -> 0 <= s <= 1 ->
  exists r,
    correct_color_cast im s = Ok r
    /\ forall i j k x x' y y',
         sample im i k = Some x -> sample im j k = Some x' ->
         sample (value_of im r) i k = Some y ->
         sample (value_of im r) j k = Some y' ->
         (x <= x')%Z -> (y <= y')%Z.
Proof.
  intros Hv Hs. exists (Spec.correct im s).
  rewrite correct_color_cast_spec by exact Hv.
  split; [reflexivity|]. intros i j k x x' y y' Hx Hx' Hy Hy' Hle.
  pose proof (valid_sample_uint8 im i k x Hv Hx) as Hux.
  pose proof (valid_sample_channel im i k x Hv Hx) as Hk.
  rewrite (returned_sample im s i k x Hx) in Hy.
  rewrite (returned_sample im s j k x' Hx') in Hy'.
  injection Hy as Hy. injection Hy' as Hy'.
  pose proof (corrected_sample_le im k x x' Hv Hk Hux Hle) as Hc.
  destruct (blend_weights_nonneg s Hs) as [Ha Hb].
  pose proof (weighted_sample_le (fsub64 1 s) s x x' _ _ Ha Hb Hux
                (corrected_sample_uint8 im k x) Hle Hc) as Hw.
  destruct (Qeq_bool s 0); [lia|].
  destruct (Spec.some_mean_zero im); [lia|].
  destruct (Qeq_bool s 1); lia.
Qed.

Lemma order_within_channel_preserved_witness :
  exists r,
    correct_color_cast Examples.cast_2x2 (1 # 2) = Ok r
    /\ forall i j k x x' y y',
         sample Examples.cast_2x2 i k = Some x ->
         sample Examples.cast_2x2 j k = Some x' ->
         sample (value_of Examples.cast_2x2 r) i k = Some y ->
         sample (value_of Examples.cast_2x2 r) j k = Some y' ->
         (x <= x')%Z -> (y <= y')%Z.
Proof.
  apply (order_within_channel_preserved Examples.cast_2x2 (1 # 2)).
  - valid_concrete.
  - split; discriminate.
Defined.



(** X6. The full correction equalises the channel means.  For a valid
    image of at most 65793 cells (the float32 sums of its channels are then
    exact) that strength 1.0 turns into a new image, and a channel [c] none
    of whose corrected samples reached 255, the corrected samples of the
    channel add up to [n * avg_gray] within [n * 1.0001] below and
    [n * 0.0001] above, [n] being the number of cells: the mean of the
    corrected channel is [avg_gray], up to the truncation of each sample
    (less than one unit, downwards) and 0.0001. *)
Theorem corrected_channel_mean_is_gray (im full : ndarray Z) (c : nat) :
  valid_image im -> (Z.of_nat (length (pixels im)) <= 65793)%Z ->
  (c < 3)%nat ->
  correct_color_cast im 1 = Ok (New full) ->
  Forall (fun y => (y < 255)%Z) (channel_samples c full) ->
  cell_count im * (Spec.avg_gray im - 1 - (1 # 10000))
  <= inject_Z (channel_total c full)
  <= cell_count im * (Spec.avg_gray im + (1 # 10000)).
Proof.
  intros Hv Hn Hc Hfull Hsat.
  destruct (full_correction_result im full Hv Hfull) as [Hz ->].
  pose proof (some_mean_zero_false im c Hc Hz) as Hzc.
  pose proof (scale_times_mean im Hv Hn c Hc Hzc) as Hm.
  pose proof (cells_pos im Hv Hn) as Hp.
  unfold cell_count in *. unfold channel_total.
  rewrite channel_samples_fully_corrected in Hsat |- * by assumption.
  apply Forall_fmap in Hsat.
  pose proof (total_scaled_bounds (Spec.corrected_sample im c)
                (Spec.scale c im) (channel_samples c im)) as Ht.
  rewrite channel_samples_length in Ht.
  fold (channel_total c im) in Ht.
  set (n := inject_Z (Z.of_nat (length (pixels im)))) in *.
  set (S := inject_Z (channel_total c im)) in *.
  set (sc := Spec.scale c im) in *.
  set (g := Spec.avg_gray im) in *.
  set (T := inject_Z (foldr Z.add 0%Z _)) in *.
  assert (Hall : S * sc - n * (1 + (1 # 65536)) <= T
                 <= S * sc + n * (1 # 65536)).
  { apply Ht. unfold sc.
    pose proof (channel_samples_uint8 im c Hv Hc) as Hu.
    rewrite Forall_forall in Hu, Hsat. apply Forall_forall. intros x Hx.
    apply corrected_sample_unsaturated;
      [apply Hu, Hx|apply scale_nonneg; assumption|apply Hsat, Hx]. }
  assert (E : sc * (S / n) * n == S * sc).
  { apply Qmult_div_cancel. lra. }
  destruct Hm as [Hm1 Hm2].
  assert (Hn0 : 0 <= n) by lra.
  pose proof (Qmult_le_compat_r _ _ n Hm1 Hn0) as H1.
  pose proof (Qmult_le_compat_r _ _ n Hm2 Hn0) as H2.
  rewrite E in H1, H2. clear Ht Hsat.
  split; lra.
Qed.

Lemma corrected_channel_mean_is_gray_witness :
  cell_count Examples.cast_2x2
  * (Spec.avg_gray Examples.cast_2x2 - 1 - (1 # 10000))
  <= inject_Z (channel_total 0 (Spec.fully_corrected Examples.cast_2x2))
  <= cell_count Examples.cast_2x2
     * (Spec.avg_gray Examples.cast_2x2 + (1 # 10000)).
Proof.
  apply (corrected_channel_mean_is_gray Examples.cast_2x2
           (Spec.fully_corrected Examples.cast_2x2) 0).
  - valid_concrete.
  - simpl. lia.
  - lia.
  - vm_compute. reflexivity.
  - vm_compute. repeat constructor.
Defined.

(** * Further properties: the application *)

(** X7. The picture fits the panel and keeps the proportions.  When
    [display_image] gets to its end on an image whose sides are below
    [2^31] (the limit of an OpenCV matrix), with [m] the longer side of the
    image, the width of the picture is the integer part of [500 * w / m]
    and its height that of [500 * h / m], or one less when the quotient is
    an integer (the float product [side * scale] can fall just below it: a
    19x19 image is shown as 499x499).  Both sides are between 1 and 500,
    and the longer one is 499 or 500. *)
Theorem display_image_size (im : ndarray Z) (nw nh : Z) :
  (Z.of_nat (width im) < 2 ^ 31)%Z -> (Z.of_nat (height im) < 2 ^ 31)%Z ->
  App.display_image im = App.Returns (nw, nh) ->
  let w := Z.of_nat (width im) in
  let h := Z.of_nat (height im) in
  let m := Z.max w h in
  (500 * w / m - 1 <= nw <= 500 * w / m)%Z
  /\ (500 * h / m - 1 <= nh <= 500 * h / m)%Z
  /\ ((500 * w) mod m <> 0%Z -> nw = (500 * w / m)%Z)
  /\ ((500 * h) mod m <> 0%Z -> nh = (500 * h / m)%Z)
  /\ (1 <= nw <= 500)%Z /\ (1 <= nh <= 500)%Z
  /\ (499 <= Z.max nw nh)%Z.
Proof.
  intros Hw Hh Hd w h m.
  destruct (display_image_done_pos im _ Hd) as [Hw1 Hh1].
  rewrite display_image_sides in Hd by assumption.
  apply resize_inv in Hd as (Hd & Hn1 & Hn2). cbn [fst snd] in Hn1, Hn2.
  injection Hd as -> ->. fold w h m in Hn1, Hn2 |- *.
  destruct (scaled_side w m ltac:(lia) ltac:(lia)) as [Hsw Hew].
  destruct (scaled_side h m ltac:(lia) ltac:(lia)) as [Hsh Heh].
  cbv zeta in Hsw, Hew, Hsh, Heh.
  set (nw := trunc _) in *. set (nh := trunc (App.mul_int_float h _)) in *.
  assert (Hqw : (500 * w / m <= 500)%Z)
    by (apply Z.div_le_upper_bound; lia).
  assert (Hqh : (500 * h / m <= 500)%Z)
    by (apply Z.div_le_upper_bound; lia).
  assert (Hm : (500 * m / m = 500)%Z) by (apply Z.div_mul; lia).
  repeat split; try assumption; try lia.
  destruct (Z.le_ge_cases w h) as [H|H].
  - assert (E : m = h) by lia. rewrite <- E, Hm in Hsh. lia.
  - assert (E : m = w) by lia. rewrite <- E, Hm in Hsw. lia.
Qed.

Lemma display_image_size_witness :
  App.display_image AppExamples.square_19x19 = App.Returns (499, 499)%Z
  /\ (500 * 19 / 19 - 1 <= 499 <= 500 * 19 / 19)%Z
  /\ (1 <= 499 <= 500)%Z /\ (499 <= Z.max 499 499)%Z.
Proof.
  assert (Hd : App.display_image AppExamples.square_19x19
               = App.Returns (499, 499)%Z) by (vm_compute; reflexivity).
  split; [exact Hd|].
  destruct (display_image_size AppExamples.square_19x19 499 499)
    as (H1 & _ & _ & _ & H2 & _ & H3).
  - simpl. lia.
  - simpl. lia.
  - exact Hd.
  - exact (conj H1 (conj H2 H3)).
Defined.

(** X8. An image more than 500 times longer than it is wide, or wider
    than it is high, cannot be displayed: the shorter side of the picture
    would be [int(...) = 0], [cv2.resize] raises on the empty size and
    [display_image] lets the exception through. *)
Theorem display_image_elongated (im : ndarray Z) :
  let w := Z.of_nat (width im) in
  let h := Z.of_nat (height im) in
  (1 <= w < 2 ^ 31)%Z -> (1 <= h < 2 ^ 31)%Z ->
  (500 * Z.min w h < Z.max w h)%Z ->
  App.display_image im = App.Raises (App.Core Cv2Error).
Proof.
  intros w h Hw Hh Hr.
  rewrite display_image_sides by lia. fold w h.
  set (m := Z.max w h) in *.
  destruct (scaled_side w m ltac:(lia) ltac:(lia)) as [Hsw _].
  destruct (scaled_side h m ltac:(lia) ltac:(lia)) as [Hsh _].
  cbv zeta in Hsw, Hsh.
  set (nw := trunc _) in *. set (nh := trunc (App.mul_int_float h _)) in *.
  unfold App.resize. cbn [fst snd].
  destruct (Z.le_ge_cases w h) as [H|H].
  - assert (E : (500 * w / m = 0)%Z) by (apply Z.div_small; lia).
    destruct (Z.leb_spec nw 0) as [_|Hn]; [|lia].
    rewrite !orb_true_r. reflexivity.
  - assert (E : (500 * h / m = 0)%Z) by (apply Z.div_small; lia).
    destruct (Z.leb_spec nh 0) as [_|Hn]; [|lia].
    rewrite !orb_true_r. reflexivity.
Qed.

Lemma display_image_elongated_witness :
  App.display_image AppExamples.tall_501x1 = App.Raises (App.Core Cv2Error).
Proof.
  apply (display_image_elongated AppExamples.tall_501x1).
  - simpl. lia.
  - simpl. lia.
  - simpl. lia.
Defined.

(** When the longer side is exactly 500 times the shorter one, the
    outcome depends on the rounding of [side * scale]: a picture of
    1 by 500 is shown, one of 49 by 24500 is not ([display_image] reads
    the shape only; the cells are left out here). *)
Example display_image_boundary :
  App.display_image (mk_ndarray 500 1 3 []) = App.Returns (1, 500)%Z
  /\ App.display_image (mk_ndarray (Z.to_nat 24500) 49 3 [])
     = App.Raises (App.Core Cv2Error).
Proof. split; vm_compute; reflexivity. Qed.



(** X10. [apply_correction] on a loaded image.  When [original_cv_image]
    is a valid image that can be displayed and the slider is between 0 and
    100, the call raises nothing; the strength it passes,
    [slider / 100.0], is in [0, 1]; [corrected_cv_image] then refers to
    what [correct_color_cast] returns for the original image at this
    strength, a valid image, shown on the corrected panel at the size of
    the original picture.  The original image object, every other object
    of the heap, the original panel, the slider and the two widget states
    are as before.  With the slider at 0, [corrected_cv_image] is the
    original image object itself. *)
Theorem apply_correction_updates (st : App.app) (image : Heap.loc)
    (a : ndarray Z) (size : Z * Z) :
  App.original_cv_image st = Some image ->
  App.heap st !! image = Some a -> valid_image a ->
  (0 <= App.strength_slider st <= 100)%Z ->
  App.display_image a = App.Returns size ->
  let strength := App.strength_val (App.strength_slider st) in
  exists st' corrected r,
    App.apply_correction st = Some (st', App.Returns tt)
    /\ 0 <= strength <= 1
    /\ correct_color_cast a strength = Ok r
    /\ App.corrected_cv_image st' = Some corrected
    /\ App.heap st' !! corrected = Some (value_of a r)
    /\ valid_image (value_of a r)
    /\ App.corrected_panel st' = Some size
    /\ App.original_cv_image st' = Some image
    /\ App.heap st' !! image = Some a
    /\ (forall x w, App.heap st !! x = Some w -> App.heap st' !! x = Some w)
    /\ App.original_panel st' = App.original_panel st
    /\ App.strength_slider st' = App.strength_slider st
    /\ App.strength_slider_state st' = App.strength_slider_state st
    /\ App.btn_save st' = App.btn_save st
    /\ (App.strength_slider st = 0%Z -> corrected = image).
Proof.
  intros Ho Ha Hv Hk Hd strength.
  destruct (apply_correction_valid st image a Ho Ha Hv)
    as (l & h & Hl & Hmono & Hin & Happly).
  rewrite Hd in Happly.
  destruct (strength_val_bounds _ Hk) as (_ & _ & Hs).
  destruct (spec_correct_valid a strength Hv) as (Hvo & _).
  eexists _, l, (Spec.correct a strength).
  split; [exact Happly|]. cbn [App.corrected_cv_image App.heap
    App.corrected_panel App.original_cv_image App.original_panel
    App.strength_slider App.strength_slider_state App.btn_save].
  split; [exact Hs|].
  split; [apply correct_color_cast_spec, Hv|].
  split; [reflexivity|]. split; [exact Hl|]. split; [exact Hvo|].
  split; [reflexivity|]. split; [reflexivity|].
  split; [apply Hmono, Ha|]. split; [exact Hmono|].
  repeat (split; [reflexivity|]).
  intros E. apply Hin. unfold strength. rewrite E. reflexivity.
Qed.

Lemma apply_correction_updates_witness :
  exists st' corrected r,
    App.apply_correction AppExamples.loaded_2x2 = Some (st', App.Returns tt)
    /\ 0 <= App.strength_val 90 <= 1
    /\ correct_color_cast Examples.cast_2x2 (App.strength_val 90) = Ok r
    /\ App.corrected_cv_image st' = Some corrected
    /\ App.heap st' !! corrected = Some (value_of Examples.cast_2x2 r)
    /\ valid_image (value_of Examples.cast_2x2 r)
    /\ App.corrected_panel st' = Some (500, 500)%Z.
Proof.
  destruct (apply_correction_updates AppExamples.loaded_2x2 1%positive
              Examples.cast_2x2 (500, 500)%Z)
    as (st' & c & r & H1 & H2 & H3 & H4 & H5 & H6 & H7 & _).
  - reflexivity.
  - apply lookup_singleton_eq.
  - valid_concrete.
  - simpl. lia.
  - vm_compute. reflexivity.
  - exists st', c, r. auto 10.
Defined.

(** X11. [load_image] on a readable file.  When the dialog gives a file
    name, [cv2.imread] a valid image that can be displayed, and the slider
    is between 0 and 100, no error is reported; [original_cv_image] is a
    new object holding the image read, [corrected_cv_image] refers to what
    [correct_color_cast] returns for it at the strength of the slider,
    both panels show a picture of the same size, the slider and the save
    button are enabled, and the objects the heap held are unchanged. *)
Theorem load_image_shows_both (st : App.app) (path : string)
    (a : ndarray Z) (size : Z * Z) :
  path <> EmptyString -> valid_image a ->
  (0 <= App.strength_slider st <= 100)%Z ->
  App.display_image a = App.Returns size ->
  exists st' image corrected r,
    App.load_image path (Some a) st = Some (st', None)
    /\ App.heap st !! image = None
    /\ App.original_cv_image st' = Some image
    /\ App.heap st' !! image = Some a
    /\ correct_color_cast a (App.strength_val (App.strength_slider st)) = Ok r
    /\ App.corrected_cv_image st' = Some corrected
    /\ App.heap st' !! corrected = Some (value_of a r)
    /\ App.original_panel st' = Some size
    /\ App.corrected_panel st' = Some size
    /\ App.btn_save st' = App.Normal
    /\ App.strength_slider_state st' = App.Normal
    /\ App.strength_slider st' = App.strength_slider st
    /\ (forall x w, App.heap st !! x = Some w -> App.heap st' !! x = Some w).
Proof.
  intros Hp Hv Hk Hd.
  destruct (alloc_spec (App.heap st) a) as (Hfresh & Hnew & Hmono).
  set (image := fst (Heap.alloc (App.heap st) a)) in *.
  set (h := snd (Heap.alloc (App.heap st) a)) in *.
  set (st2 := App.mk_app h (Some image) (App.corrected_cv_image st)
                (Some size) (App.corrected_panel st)
                (App.strength_slider st) App.Normal App.Normal).
  destruct (apply_correction_valid st2 image a eq_refl Hnew Hv)
    as (l & h' & Hl & Hm' & _ & Happly).
  rewrite Hd in Happly.
  cbn [st2 App.heap App.strength_slider App.original_panel
       App.strength_slider_state App.btn_save] in Hl, Hm', Happly.
  eexists _, image, l, _.
  split.
  { unfold App.load_image. destruct path as [|ch path]; [congruence|].
    rewrite (surjective_pairing (Heap.alloc (App.heap st) a)).
    fold image h. rewrite Hd. fold st2. rewrite Happly. reflexivity. }
  cbn [App.heap App.original_cv_image App.corrected_cv_image
       App.original_panel App.corrected_panel App.strength_slider
       App.strength_slider_state App.btn_save].
  split; [exact Hfresh|]. split; [reflexivity|].
  split; [apply Hm', Hnew|].
  split; [apply correct_color_cast_spec, Hv|].
  split; [reflexivity|]. split; [exact Hl|].
  repeat (split; [reflexivity|]).
  intros x w Hx. apply Hm', Hmono, Hx.
Qed.

Lemma load_image_shows_both_witness :
  exists st' image corrected r,
    App.load_image "photo.png" (Some Examples.cast_2x2) (App.init 90)
    = Some (st', None)
    /\ App.original_cv_image st' = Some image
    /\ App.heap st' !! image = Some Examples.cast_2x2
    /\ correct_color_cast Examples.cast_2x2 (App.strength_val 90) = Ok r
    /\ App.corrected_cv_image st' = Some corrected
    /\ App.heap st' !! corrected = Some (value_of Examples.cast_2x2 r)
    /\ App.btn_save st' = App.Normal.
Proof.
  destruct (load_image_shows_both (App.init 90) "photo.png"
              Examples.cast_2x2 (500, 500)%Z)
    as (st' & i & c & r & H1 & _ & H3 & H4 & H5 & H6 & H7 & _ & _ & H10 & _).
  - discriminate.
  - valid_concrete.
  - simpl. lia.
  - vm_compute. reflexivity.
  - exists st', i, c, r. auto 10.
Defined.

(** X12. The state invariant.  From the state [__init__] leaves, with
    the slider anywhere between 0 and 100, after any sequence of loads
    (of files that [cv2.imread] cannot read, or reads as valid images),
    slider moves and saves: no attribute dangles; [original_cv_image] and
    [corrected_cv_image] are [None] or valid images; the slider is enabled
    exactly when the save button is, and the save button exactly when
    there is a corrected image.  So whenever the save button is enabled,
    [save_image] with a file name hands a valid image to
    [cv2.imwrite]. *)
Theorem reachable_states_consistent (slider : Z) (evs : list App.event) :
  (0 <= slider <= 100)%Z -> Forall App.readable evs ->
  exists st,
    App.run (App.init slider) evs = Some st
    /\ App.consistent st
    /\ forall path,
         path <> EmptyString -> App.btn_save st = App.Normal ->
         exists out,
           App.save_image path st = Some (Some (path, out))
           /\ valid_image out.
Proof.
  intros Hk Hr.
  destruct (run_consistent _ evs (init_consistent slider Hk) Hr)
    as (st & Hrun & Hc).
  exists st. split; [exact Hrun|]. split; [exact Hc|].
  intros path Hp Hb. destruct Hc as (_ & Hcr & _ & Hbc & _).
  apply Hbc in Hb. unfold App.save_image.
  destruct (App.corrected_cv_image st) as [l|]; [|congruence].
  destruct (Hcr l eq_refl) as (out & Hout & Hv).
  destruct path as [|ch path]; [congruence|].
  rewrite Hout. exists out. auto.
Qed.

Lemma reachable_states_consistent_witness :
  exists st,
    App.run (App.init 90) AppExamples.session = Some st
    /\ App.consistent st
    /\ forall path,
         path <> EmptyString -> App.btn_save st = App.Normal ->
         exists out,
           App.save_image path st = Some (Some (path, out))
           /\ valid_image out.
Proof.
  apply (reachable_states_consistent 90 AppExamples.session).
  - lia.
  - unfold AppExamples.session.
    repeat apply Forall_cons_2; try apply Forall_nil_2;
      cbn [App.readable]; try exact I. valid_concrete.
Defined.



(** X14. A load that fails.  When the dialog gives a file name and
    [cv2.imread] returns [None], or an image [display_image] raises on,
    [load_image] reports the exception and leaves the corrected image, the
    two panels, the slider and the widget states as they were, while
    [original_cv_image] is already replaced: by [None] in the first case
    (the error is the [ValueError] of line 113), by the new image in the
    second.  The corrected image of the previous load stays in place and
    can still be saved. *)
Theorem failed_load_keeps_corrected_image (st : App.app) (path : string)
    (file : option (ndarray Z)) :
  path <> EmptyString ->
  (file = None
   \/ exists a e, file = Some a /\ App.display_image a = App.Raises e) ->
  exists st' e,
    App.load_image path file st = Some (st', Some e)
    /\ App.corrected_cv_image st' = App.corrected_cv_image st
    /\ App.original_panel st' = App.original_panel st
    /\ App.corrected_panel st' = App.corrected_panel st
    /\ App.strength_slider st' = App.strength_slider st
    /\ App.strength_slider_state st' = App.strength_slider_state st
    /\ App.btn_save st' = App.btn_save st
    /\ (forall l v, App.heap st !! l = Some v -> App.heap st' !! l = Some v)
    /\ (file = None ->
        App.original_cv_image st' = None /\ e = App.Core ValueError)
    /\ (forall a, file = Some a ->
        exists image,
          App.original_cv_image st' = Some image
          /\ App.heap st !! image = None
          /\ App.heap st' !! image = Some a
          /\ App.display_image a = App.Raises e).
Proof.
  intros Hp Hf. unfold App.load_image.
  destruct path as [|ch path]; [congruence|].
  destruct Hf as [->|(a & e & -> & Hd)].
  - eexists _, _. split; [reflexivity|].
    cbn [App.heap App.original_cv_image App.corrected_cv_image
         App.original_panel App.corrected_panel App.strength_slider
         App.strength_slider_state App.btn_save].
    repeat (split; [reflexivity|]). split; [auto|].
    split; [auto|]. intros a [=].
  - destruct (alloc_spec (App.heap st) a) as (Hfresh & Hnew & Hm).
    rewrite (surjective_pairing (Heap.alloc (App.heap st) a)), Hd.
    eexists _, _. split; [reflexivity|].
    cbn [App.heap App.original_cv_image App.corrected_cv_image
         App.original_panel App.corrected_panel App.strength_slider
         App.strength_slider_state App.btn_save].
    repeat (split; [reflexivity|]). split; [exact Hm|].
    split; [intros [=]|]. intros a' [= <-].
    eexists. split; [reflexivity|]. auto.
Qed.

Lemma failed_load_keeps_corrected_image_witness :
  exists st' e,
    App.load_image "missing.png" None AppExamples.loaded_2x2
    = Some (st', Some e)
    /\ App.corrected_cv_image st'
       = App.corrected_cv_image AppExamples.loaded_2x2
    /\ App.btn_save st' = App.btn_save AppExamples.loaded_2x2
    /\ App.original_cv_image st' = None.
Proof.
  destruct (failed_load_keeps_corrected_image AppExamples.loaded_2x2
              "missing.png" None)
    as (st' & e & H1 & H2 & _ & _ & _ & _ & H7 & _ & H9 & _).
  - discriminate.
  - left. reflexivity.
  - exists st', e. destruct (H9 eq_refl) as [H _]. auto.
Defined.

(** X15. The strengths the slider can give.  For a slider value between
    0 and 100, [slider / 100.0] is in [0, 1]; it is 0.0 exactly when the
    slider is at 0 and 1.0 exactly when the slider is at 100. *)
Theorem slider_strength_range (slider : Z) :
  (0 <= slider <= 100)%Z ->
  0 <= App.strength_val slider <= 1
  /\ (App.strength_val slider == 0 <-> slider = 0%Z)
  /\ (App.strength_val slider == 1 <-> slider = 100%Z).
Proof.
  intros Hk. destruct (strength_val_bounds _ Hk) as (-> & [Hq0 Hq1] & Hs).
  split; [exact Hs|].
  assert (H0 : 0 <= inject_Z slider).
  { change 0 with (inject_Z 0). rewrite <- Zle_Qle. lia. }
  split; split.
  - intros E. destruct (Z.eq_dec slider 0%Z) as [|Hne]; [assumption|].
    exfalso.
    assert (Hk1 : 1 <= inject_Z slider).
    { change 1 with (inject_Z 1). rewrite <- Zle_Qle. lia. }
    assert (Hl : pow2 (-7) <= inject_Z slider / 100).
    { change (pow2 (-7)) with (1 # 128). apply Qle_shift_div_l; lra. }
    apply (round_lower 53 (-1074)) in Hl; [|lia|lia].
    fold (rnd64 (inject_Z slider / 100)) in Hl.
    change (pow2 (-7)) with (1 # 128) in Hl. lra.
  - intros ->. reflexivity.
  - intros E. destruct (Z.eq_dec slider 100%Z) as [|Hne]; [assumption|].
    exfalso.
    assert (Hk1 : inject_Z slider <= 99).
    { change 99 with (inject_Z 99). rewrite <- Zle_Qle. lia. }
    assert (Hl : inject_Z slider / 100 <= 99 # 100).
    { apply Qle_shift_div_r; lra. }
    apply (rnd64_le _ _ Hq0) in Hl.
    assert (Hc : rnd64 (99 # 100) < 1) by (vm_compute; reflexivity).
    lra.
  - intros ->. reflexivity.
Qed.

Lemma slider_strength_range_witness :
  0 <= App.strength_val 90 <= 1
  /\ (App.strength_val 90 == 0 <-> 90%Z = 0%Z)
  /\ (App.strength_val 90 == 1 <-> 90%Z = 100%Z).
Proof. apply (slider_strength_range 90). lia. Defined.
